(** * duckdb-crawler: robots.txt rules, sitemap parsing, URL queue, backoff

    A shallow embedding of the scheduling and politeness core of the
    crawler extension (robots.txt and sitemap parsers, URL queue, domain
    map, streaming worker and its result queue, retry schedule, attribute
    decoding), the properties of it that the specification states, and
    further properties of the code: invariants of what the parsers store,
    round trips of written robots.txt and sitemap files, and conservation
    and order of the queues.

    Conventions of the embedding:
    - [std::string] is [string]; positions are [nat]; [std::string::npos]
      is [None] in the result of [find].
    - [double] is IEEE binary64, as [spec_float] with [prec = 53] and
      [emax = 1024].
    - [std::vector] is [list]; [push_back] appends at the end.
    - [std::unordered_map<std::string, V>] that the code iterates over is an
      association list in the order its iterator visits the entries.
    - [int] is [Z] with 32-bit two's complement wrap-around written out.
    - [std::chrono::steady_clock::time_point] is the [Z] tick count. *)

From Stdlib Require Import String Ascii List ZArith Lia ZifyNat Bool Permutation Sorted.
From Stdlib Require Import SpecFloat.
From stdpp Require Import list gmap strings.

Import ListNotations.
Local Open Scope string_scope.
Local Open Scope nat_scope.

(** ** std::string and <cctype> *)

Module Str.

(** [std::isspace] in the "C" locale: space, \t, \n, \v, \f, \r. *)
Definition isspace (c : ascii) : bool :=
  let n := nat_of_ascii c in
  (n =? 32) || ((9 <=? n) && (n <=? 13)).

(** [std::tolower] in the "C" locale. *)
Definition tolower (c : ascii) : ascii :=
  let n := nat_of_ascii c in
  if (65 <=? n) && (n <=? 90) then ascii_of_nat (n + 32) else c.

Definition newline : ascii := ascii_of_nat 10.

Definition empty (s : string) : bool :=
  match s with EmptyString => true | String _ _ => false end.

(** [s.substr(pos)]: the suffix from position [pos] (callers keep
    [pos <= s.length()]). *)
Fixpoint substr_from (pos : nat) (s : string) : string :=
  match pos, s with
  | O, _ => s
  | S p, String _ s' => substr_from p s'
  | S _, EmptyString => EmptyString
  end.

(** [s.substr(pos, n)]. *)
Fixpoint take (n : nat) (s : string) : string :=
  match n, s with
  | S n', String c s' => String c (take n' s')
  | _, _ => EmptyString
  end.

Definition substr (pos n : nat) (s : string) : string :=
  take n (substr_from pos s).

(** [pat] is read at the very start of [s]. *)
Fixpoint starts_with (pat s : string) : bool :=
  match pat, s with
  | EmptyString, _ => true
  | String p pat', String c s' => Ascii.eqb p c && starts_with pat' s'
  | String _ _, EmptyString => false
  end.

(** The scan of [std::string::find]: [s] is the suffix of the subject at
    absolute position [i]. *)
Fixpoint find_scan (pat s : string) (i : nat) : option nat :=
  if starts_with pat s then Some i
  else match s with
       | EmptyString => None
       | String _ s' => find_scan pat s' (S i)
       end.

(** [s.find(pat, pos)]; [None] is [npos]. *)
Definition find (s pat : string) (pos : nat) : option nat :=
  if pos <=? String.length s then find_scan pat (substr_from pos s) pos
  else None.

(** [s.find(pat, pos) == 0]. *)
Definition find_is_zero (r : option nat) : bool :=
  match r with Some O => true | _ => false end.

(** [s.find_first_not_of(set)]. *)
Fixpoint find_first_not_of_scan (set : ascii -> bool) (s : string) (i : nat)
  : option nat :=
  match s with
  | EmptyString => None
  | String c s' =>
      if set c then find_first_not_of_scan set s' (S i) else Some i
  end.

Definition find_first_not_of (set : ascii -> bool) (s : string) : option nat :=
  find_first_not_of_scan set s 0.

(** [s.find_last_not_of(set)]. *)
Fixpoint find_last_not_of_scan (set : ascii -> bool) (s : string) (i : nat)
  : option nat :=
  match s with
  | EmptyString => None
  | String c s' =>
      match find_last_not_of_scan set s' (S i) with
      | Some j => Some j
      | None => if set c then None else Some i
      end
  end.

Definition find_last_not_of (set : ascii -> bool) (s : string) : option nat :=
  find_last_not_of_scan set s 0.

(** The lines [std::getline] yields from a stream over [s]: split at
    newline; a final line without newline is still yielded when it is not
    empty. *)
Fixpoint getlines (s : string) : list string :=
  match s with
  | EmptyString => []
  | String c s' =>
      if Ascii.eqb c newline then EmptyString :: getlines s'
      else match getlines s' with
           | [] => [String c EmptyString]
           | l :: ls => String c l :: ls
           end
  end.

(** [s.front()] and [s.back()]; [None] on the empty string. *)
Definition front (s : string) : option ascii :=
  match s with
  | EmptyString => None
  | String c _ => Some c
  end.

Fixpoint back (s : string) : option ascii :=
  match s with
  | EmptyString => None
  | String c EmptyString => Some c
  | String _ s' => back s'
  end.

End Str.

(** ** IEEE binary64 *)

Module Double.

Definition double : Type := spec_float.
Definition prec : Z := 53%Z.
Definition emax : Z := 1024%Z.

Definition zero : double := S754_zero false.
(** The literal [-1.0]. *)
Definition minus_one : double := S754_finite true 4503599627370496 (-52).

(** [a < b], [a > b], [a >= b] of C++ on doubles (all false on NaN). *)
Definition lt (a b : double) : bool := SFltb a b.
Definition gt (a b : double) : bool := SFltb b a.
Definition ge (a b : double) : bool := SFleb b a.
Definition div (a b : double) : double := SFdiv prec emax a b.

(** [std::max(a, b)] is [(a < b) ? b : a]. *)
Definition max (a b : double) : double := if lt a b then b else a.

(** The double nearest to the integer [n]. *)
Definition of_Z (n : Z) : double := binary_normalize prec emax n 0 false.

End Double.

(** ** robots_parser.hpp / robots_parser.cpp *)

Module Robots.
Import Str Double.

(** Rules for a specific user-agent. *)
Record RobotsRules := mkRules {
  crawl_delay : double;     (* -1 means not set *)
  request_rate : double;    (* m/n seconds per request, -1 means not set *)
  disallow : list string;
  allow : list string
}.

(** [RobotsRules()] with the default member initialisers. *)
Definition RobotsRules_init : RobotsRules :=
  mkRules minus_one minus_one [] [].

Definition HasCrawlDelay (r : RobotsRules) : bool :=
  ge (crawl_delay r) zero || ge (request_rate r) zero.

Definition GetEffectiveDelay (r : RobotsRules) : double :=
  if ge (crawl_delay r) zero && ge (request_rate r) zero
  then max (crawl_delay r) (request_rate r)
  else if ge (crawl_delay r) zero then crawl_delay r
  else if ge (request_rate r) zero then request_rate r
  else minus_one.

(** The entries of [std::unordered_map<std::string, RobotsRules>] in the
    order in which iteration visits them. Keys are unique in every map the
    parser builds; [um_find] reads the first entry of a key. *)
Definition umap : Type := list (string * RobotsRules).

Fixpoint um_find (k : string) (m : umap) : option RobotsRules :=
  match m with
  | [] => None
  | (k', v) :: m' => if String.eqb k k' then Some v else um_find k m'
  end.

(** Assignment through a reference to the mapped value of [k]. *)
Fixpoint um_update (k : string) (f : RobotsRules -> RobotsRules) (m : umap)
  : umap :=
  match m with
  | [] => []
  | (k', v) :: m' =>
      if String.eqb k k' then (k', f v) :: m' else (k', v) :: um_update k f m'
  end.

(** [m[k] = v] for a key that [find] did not find: a new entry. Where the
    iteration order places a new entry is not specified by the container;
    the model appends it. *)
Definition um_emplace (k : string) (v : RobotsRules) (m : umap) : umap :=
  (m ++ [(k, v)])%list.

(** Parsed robots.txt content. *)
Record RobotsData := mkData {
  user_agents : umap;
  sitemaps : list string
}.

(** Trim whitespace from both ends of a string: the first loop advances
    [start], the second retreats [end]. *)
Fixpoint trim_start (s : string) : string :=
  match s with
  | EmptyString => EmptyString
  | String c s' => if isspace c then trim_start s' else s
  end.

Fixpoint trim_end (s : string) : string :=
  match s with
  | EmptyString => EmptyString
  | String c s' =>
      match trim_end s' with
      | EmptyString => if isspace c then EmptyString else String c EmptyString
      | t => String c t
      end
  end.

Definition Trim (s : string) : string := trim_end (trim_start s).

(** Convert string to lowercase. *)
Fixpoint ToLower (s : string) : string :=
  match s with
  | EmptyString => EmptyString
  | String c s' => String (tolower c) (ToLower s')
  end.

(** Case-insensitive starts with check. *)
Fixpoint StartsWithCaseInsensitive (str prefix : string) : bool :=
  match prefix, str with
  | EmptyString, _ => true
  | String p prefix', String c str' =>
      Ascii.eqb (tolower c) (tolower p)
      && StartsWithCaseInsensitive str' prefix'
  | String _ _, EmptyString => false
  end.

(** Extract value after "Key: value". *)
Definition ExtractValue (line : string) (prefix_len : nat) : string :=
  Trim (substr_from prefix_len line).

Section Parser.

(** [std::stod] of the C++ library: [None] when it throws
    ([std::invalid_argument], [std::out_of_range]). *)
Variable stod : string -> option double.

(** The locals of [Parse] that live across loop iterations.
    [current_rules] points into [data.user_agents]; the model keeps the key
    of the entry it points to ([None] is [nullptr]). References into an
    unordered_map stay valid across insertions. *)
Record ParseState := mkState {
  data : RobotsData;
  current_rules : option string
}.

Definition set_rules (f : RobotsRules -> RobotsRules) (k : string)
  (st : ParseState) : ParseState :=
  mkState (mkData (um_update k f (user_agents (data st))) (sitemaps (data st)))
          (current_rules st).

Definition on_user_agent (line : string) (st : ParseState) : ParseState :=
  let ua := ToLower (ExtractValue line 11) in
  if empty ua then st
  else
    let uas := user_agents (data st) in
    let uas' := match um_find ua uas with
                | None => um_emplace ua RobotsRules_init uas
                | Some _ => uas
                end in
    mkState (mkData uas' (sitemaps (data st))) (Some ua).

Definition on_crawl_delay (line : string) (k : string) (st : ParseState)
  : ParseState :=
  let delay_str := ExtractValue line 12 in
  match stod delay_str with
  | Some delay =>
      if ge delay zero
      then set_rules (fun r => mkRules delay (request_rate r) (disallow r) (allow r)) k st
      else st
  | None => st
  end.

Definition on_request_rate (line : string) (k : string) (st : ParseState)
  : ParseState :=
  let rate_str := ExtractValue line 13 in
  match find rate_str "/" 0 with
  | Some slash_pos =>
      match stod (substr 0 slash_pos rate_str) with
      | Some n =>
          match stod (substr_from (slash_pos + 1) rate_str) with
          | Some m =>
              if gt n zero && gt m zero
              then set_rules (fun r => mkRules (crawl_delay r) (div m n) (disallow r) (allow r)) k st
              else st
          | None => st
          end
      | None => st
      end
  | None => st
  end.

Definition on_disallow (line : string) (k : string) (st : ParseState)
  : ParseState :=
  let path := ExtractValue line 9 in
  if empty path then st
  else set_rules (fun r => mkRules (crawl_delay r) (request_rate r) (disallow r ++ [path])%list (allow r)) k st.

Definition on_allow (line : string) (k : string) (st : ParseState)
  : ParseState :=
  let path := ExtractValue line 6 in
  if empty path then st
  else set_rules (fun r => mkRules (crawl_delay r) (request_rate r) (disallow r) (allow r ++ [path])%list) k st.

Definition on_sitemap (line : string) (st : ParseState) : ParseState :=
  let url := ExtractValue line 8 in
  if empty url then st
  else mkState (mkData (user_agents (data st)) (sitemaps (data st) ++ [url])%list)
               (current_rules st).

Definition is_comment (line : string) : bool :=
  match line with String "#" _ => true | _ => false end.

(** One iteration of the [while (std::getline(stream, line))] loop. *)
Definition parse_line (st : ParseState) (raw : string) : ParseState :=
  let line := Trim raw in
  if empty line || is_comment line then st
  else if StartsWithCaseInsensitive line "user-agent:" then on_user_agent line st
  else
    match StartsWithCaseInsensitive line "crawl-delay:", current_rules st with
    | true, Some k => on_crawl_delay line k st
    | _, _ =>
    match StartsWithCaseInsensitive line "request-rate:", current_rules st with
    | true, Some k => on_request_rate line k st
    | _, _ =>
    match StartsWithCaseInsensitive line "disallow:", current_rules st with
    | true, Some k => on_disallow line k st
    | _, _ =>
    match StartsWithCaseInsensitive line "allow:", current_rules st with
    | true, Some k => on_allow line k st
    | _, _ =>
    if StartsWithCaseInsensitive line "sitemap:" then on_sitemap line st
    else st
    end end end end.

Definition parse_init : ParseState := mkState (mkData [] []) None.

Definition parse_lines (st : ParseState) (lines : list string) : ParseState :=
  fold_left parse_line lines st.

Definition Parse (robots_txt_content : string) : RobotsData :=
  data (parse_lines parse_init (getlines robots_txt_content)).

End Parser.

Definition GetRulesForUserAgent (d : RobotsData) (user_agent : string)
  : RobotsRules :=
  let ua_lower := ToLower user_agent in
  (* Try exact match first *)
  match um_find ua_lower (user_agents d) with
  | Some r => r
  | None =>
      (* Try prefix match: the first entry the iteration meets *)
      match List.find (fun entry =>
                    negb (String.eqb (fst entry) "*")
                    && find_is_zero (find ua_lower (fst entry) 0))
                 (user_agents d) with
      | Some entry => snd entry
      | None =>
          (* Fall back to wildcard *)
          match um_find "*" (user_agents d) with
          | Some r => r
          | None => RobotsRules_init
          end
      end
  end.

Definition IsAllowed (rules : RobotsRules) (path : string) : bool :=
  if existsb (fun a => find_is_zero (find path a 0)) (allow rules) then true
  else if existsb (fun d => negb (empty d) && find_is_zero (find path d 0))
                  (disallow rules) then false
  else true.

Definition ParseSitemapUrls (stod : string -> option double)
  (robots_txt_content : string) : list string :=
  sitemaps (Parse stod robots_txt_content).

End Robots.

(** ** The path decision and the user-agent selection in the words of the
       specification *)

Module RobotsSpec.
Import Str Double Robots.

(** Keep the longer of the best rule so far and [r]. *)
Definition longer (best : option string) (r : string) : option string :=
  match best with
  | None => Some r
  | Some b => if String.length b <? String.length r then Some r else best
  end.

(** The longest rule of [rules] that matches, if any rule matches. *)
Definition longest_match (matches : string -> bool) (rules : list string)
  : option string :=
  fold_left (fun best r => if matches r then longer best r else best)
            rules None.

(** "Longest-matching Allow wins over any Disallow; else longest-matching
    Disallow denies; else allow", for a given notion of a rule matching
    the path. *)
Definition path_decision (matches : string -> string -> bool)
  (allows disallows : list string) (path : string) : bool :=
  match longest_match (fun r => matches r path) allows with
  | Some _ => true
  | None =>
      match longest_match (fun r => matches r path) disallows with
      | Some _ => false
      | None => true
      end
  end.

(** A rule with its trailing [$] removed, when it has one. *)
Fixpoint strip_anchor (rule : string) : option string :=
  match rule with
  | EmptyString => None
  | String c EmptyString =>
      if Ascii.eqb c "$" then Some EmptyString else None
  | String c rest =>
      match strip_anchor rest with
      | Some body => Some (String c body)
      | None => None
      end
  end.

(** "Matching is prefix-based on the path; trailing [$] anchors": an
    anchored rule matches only when the match ends where the path ends. *)
Definition anchored_match (rule path : string) : bool :=
  match strip_anchor rule with
  | Some body => String.eqb body path
  | None => starts_with rule path
  end.

(** The path decision as the specification words it. *)
Definition spec_IsAllowed (rules : RobotsRules) (path : string) : bool :=
  path_decision anchored_match (allow rules) (disallow rules) path.

(** The entry with the longest key among those whose key is a prefix of
    [ua]. *)
Definition longer_entry (ua : string)
  (best : option (string * RobotsRules)) (e : string * RobotsRules)
  : option (string * RobotsRules) :=
  if starts_with (fst e) ua then
    match best with
    | None => Some e
    | Some b =>
        if String.length (fst b) <? String.length (fst e) then Some e else best
    end
  else best.

Definition longest_prefix_entry (ua : string) (m : umap)
  : option (string * RobotsRules) :=
  fold_left (longer_entry ua) m None.

(** "Exact match, then longest prefix match on the lowercase UA string,
    then [*], else empty rules". *)
Definition spec_GetRulesForUserAgent (d : RobotsData) (user_agent : string)
  : RobotsRules :=
  let ua_lower := ToLower user_agent in
  match um_find ua_lower (user_agents d) with
  | Some r => r
  | None =>
      match longest_prefix_entry ua_lower (user_agents d) with
      | Some e => snd e
      | None =>
          match um_find "*" (user_agents d) with
          | Some r => r
          | None => RobotsRules_init
          end
      end
  end.

(** *** The lines of a robots.txt, as the statements about [Parse]
        classify them *)


Definition is_user_agent_line (raw : string) : bool :=
  StartsWithCaseInsensitive (Trim raw) "user-agent:".


(** A block (other than [*]) whose name is a prefix of [ua]. *)
Definition prefix_block (ua : string) (e : string * RobotsRules) : Prop :=
  fst e <> "*" /\ starts_with (fst e) ua = true.


(** *** What a well-formed parse result holds *)

(** A stored path or URL: not empty, no surrounding whitespace. *)
Definition value_ok (p : string) : Prop := p <> "" /\ Trim p = p.

(** A stored crawl delay: unset, or not negative. *)
Definition delay_ok (d : double) : Prop :=
  d = minus_one \/ ge d zero = true.

(** A stored request rate: unset, not negative, or NaN (from [inf/inf]). *)
Definition rate_ok (d : double) : Prop :=
  d = minus_one \/ ge d zero = true \/ d = S754_nan.

Definition rules_ok (r : RobotsRules) : Prop :=
  Forall value_ok (disallow r) /\ Forall value_ok (allow r)
  /\ delay_ok (crawl_delay r) /\ rate_ok (request_rate r).

(** A key of the map: not empty, in lower case. *)
Definition key_ok (k : string) : Prop := k <> "" /\ ToLower k = k.

(** The sitemap URL a line contributes, wherever it stands. *)
Definition sitemap_value (raw : string) : option string :=
  let line := Trim raw in
  if empty line || is_comment line then None
  else if StartsWithCaseInsensitive line "sitemap:" then
    let url := ExtractValue line 8 in
    if empty url then None else Some url
  else None.

Fixpoint keep_some {A B : Type} (f : A -> option B) (l : list A) : list B :=
  match l with
  | [] => []
  | x :: l' =>
      match f x with
      | Some y => y :: keep_some f l'
      | None => keep_some f l'
      end
  end.

(** The invariant of the parse loop. *)
Definition state_ok (st : ParseState) : Prop :=
  NoDup (map fst (user_agents (data st)))
  /\ Forall (fun e => key_ok (fst e) /\ rules_ok (snd e))
            (user_agents (data st))
  /\ Forall value_ok (sitemaps (data st)).










End RobotsSpec.

(** ** sitemap_parser.hpp / sitemap_parser.cpp *)

Module Sitemap.
Import Str.

Record SitemapEntry := mkEntry {
  loc : string;          (* URL *)
  lastmod : string;      (* Last modification date (optional) *)
  changefreq : string;   (* Change frequency (optional) *)
  priority : string      (* Priority (optional) *)
}.

Record SitemapData := mkSitemap {
  urls : list SitemapEntry;        (* URLs from sitemap *)
  sitemap_urls : list string;      (* Nested sitemaps (sitemap index) *)
  is_index : bool                  (* True if this is a sitemap index *)
}.

(** Simple XML tag extraction helper. The result pairs the returned string
    with the value left in the out-parameter [end_pos]. *)
Definition ExtractTagContent (xml tag : string) (start_pos : nat)
  : string * option nat :=
  let open_tag := "<" ++ tag ++ ">" in
  let close_tag := "</" ++ tag ++ ">" in
  let tag_start :=
    match find xml open_tag start_pos with
    | None =>
        (* Try with attributes: <tag ...> *)
        let open_tag_attr := "<" ++ tag in
        match find xml open_tag_attr start_pos with
        | None => None
        | Some tag_start =>
            (* Find the closing > *)
            match find xml ">" tag_start with
            | None => None
            | Some attr_end => Some (attr_end + 1)
            end
        end
    | Some tag_start => Some (tag_start + String.length open_tag)
    end in
  match tag_start with
  | None => (EmptyString, None)
  | Some tag_start =>
      match find xml close_tag tag_start with
      | None => (EmptyString, None)
      | Some tag_end =>
          (substr tag_start (tag_end - tag_start) xml,
           Some (tag_end + String.length close_tag))
      end
  end.

(** The [while (pos < xml.length())] loop of [FindAllBlocks]; every
    iteration moves [pos] forward by at least the length of the closing
    tag, so [fuel = xml.length()] iterations are never used up. *)
Fixpoint FindAllBlocks_loop (fuel : nat) (xml open_tag close_tag : string)
  (pos : nat) (blocks : list string) : list string :=
  match fuel with
  | O => blocks
  | S fuel' =>
      if pos <? String.length xml then
        match find xml open_tag pos with
        | None => blocks
        | Some block_start =>
            match find xml close_tag block_start with
            | None => blocks
            | Some block_end0 =>
                let block_end := block_end0 + String.length close_tag in
                FindAllBlocks_loop fuel' xml open_tag close_tag block_end
                  (blocks ++ [substr block_start (block_end - block_start) xml])%list
            end
        end
      else blocks
  end.

(** Find all occurrences of a tag block. *)
Definition FindAllBlocks (xml tag : string) : list string :=
  let open_tag := "<" ++ tag in
  let close_tag := "</" ++ tag ++ ">" in
  FindAllBlocks_loop (String.length xml) xml open_tag close_tag 0 [].

(** The character set [" \t\n\r"]. *)
Definition ws (c : ascii) : bool :=
  let n := nat_of_ascii c in
  (n =? 32) || (n =? 9) || (n =? 10) || (n =? 13).

(** The "Trim whitespace" step applied to a [loc]: [None] when the guard
    [start != npos && end != npos] fails. *)
Definition trim_loc (loc : string) : option string :=
  match find_first_not_of ws loc, find_last_not_of ws loc with
  | Some start, Some end_ => Some (substr start (end_ - start + 1) loc)
  | _, _ => None
  end.

Definition parse_sitemap_block (block : string) : option string :=
  let loc := fst (ExtractTagContent block "loc" 0) in
  if empty loc then None else trim_loc loc.

Definition parse_url_block (block : string) : option SitemapEntry :=
  let loc := fst (ExtractTagContent block "loc" 0) in
  let loc :=
    if empty loc then loc
    else match trim_loc loc with Some t => t | None => loc end in
  let lastmod := fst (ExtractTagContent block "lastmod" 0) in
  let changefreq := fst (ExtractTagContent block "changefreq" 0) in
  let priority := fst (ExtractTagContent block "priority" 0) in
  if empty loc then None else Some (mkEntry loc lastmod changefreq priority).

(** Collect the [Some] results in order ([push_back] per block). *)
Fixpoint collect {A B : Type} (f : A -> option B) (l : list A) : list B :=
  match l with
  | [] => []
  | x :: l' =>
      match f x with
      | Some y => y :: collect f l'
      | None => collect f l'
      end
  end.

Definition Parse (xml_content : string) : SitemapData :=
  (* Check if this is a sitemap index *)
  match find xml_content "<sitemapindex" 0 with
  | Some _ =>
      mkSitemap []
        (collect parse_sitemap_block (FindAllBlocks xml_content "sitemap"))
        true
  | None =>
      (* Regular sitemap - extract all <url> blocks *)
      mkSitemap (collect parse_url_block (FindAllBlocks xml_content "url"))
        [] false
  end.

(** What the specification asks of a field: surrounding whitespace
    removed. *)
Definition is_trimmed (s : string) : Prop :=
  find_first_not_of ws s = (if empty s then None else Some 0)
  /\ find_last_not_of ws s = (if empty s then None else Some (String.length s - 1)).

(** [line.pop_back()] when [line.back() == '\r']. *)
Fixpoint strip_cr (line : string) : string :=
  match line with
  | EmptyString => EmptyString
  | String c EmptyString =>
      if Ascii.eqb c (ascii_of_nat 13) then EmptyString else line
  | String c rest => String c (strip_cr rest)
  end.

(** The character set [" \t"]. *)
Definition blank (c : ascii) : bool :=
  let n := nat_of_ascii c in (n =? 32) || (n =? 9).

(** The body of the [while (std::getline(stream, line))] loop of
    [ExtractSitemapsFromRobotsTxt]: the URL the line contributes. *)
Definition sitemap_of_line (raw : string) : option string :=
  (* Remove carriage return if present *)
  let line := strip_cr raw in
  (* Skip empty lines and comments *)
  match line with
  | EmptyString => None
  | String c _ =>
      if Ascii.eqb c "#" then None
      else
        (* Check for Sitemap directive (case-insensitive) *)
        let lower_line := Robots.ToLower line in
        if find_is_zero (find lower_line "sitemap:" 0) then
          (* Extract URL after "Sitemap:" *)
          let url := substr_from 8 line in
          (* Trim whitespace *)
          match find_first_not_of blank url, find_last_not_of ws url with
          | Some start, Some end_ => Some (substr start (end_ - start + 1) url)
          | _, _ => None
          end
        else None
  end.

(** Extract sitemap URLs from robots.txt content. *)
Definition ExtractSitemapsFromRobotsTxt (robots_content : string)
  : list string :=
  collect sitemap_of_line (getlines robots_content).

(** Common sitemap locations to bruteforce. *)
Definition GetCommonSitemapPaths : list string :=
  ["/sitemap.xml"; "/sitemap_index.xml"; "/sitemap-index.xml";
   "/sitemapindex.xml"; "/sitemap/sitemap.xml"; "/sitemaps/sitemap.xml";
   "/sitemap1.xml"; "/sitemap-1.xml"; "/post-sitemap.xml";
   "/page-sitemap.xml"; "/product-sitemap.xml"; "/category-sitemap.xml";
   "/wp-sitemap.xml"].

(** A text without the character [<]. *)
Fixpoint no_lt (s : string) : bool :=
  match s with
  | EmptyString => true
  | String c s' => negb (Ascii.eqb c "<") && no_lt s'
  end.

(** A string whose first character is outside [set1] and whose last
    character is outside [set2]. *)
Definition trimmed_by (set1 set2 : ascii -> bool) (s : string) : Prop :=
  exists a b, front s = Some a /\ back s = Some b
              /\ set1 a = false /\ set2 b = false.

(** A block of [tag]: it starts with [<tag] and ends with [</tag>]. *)
Definition block_of (tag block : string) : Prop :=
  starts_with ("<" ++ tag) block = true
  /\ exists body, block = (body ++ "</" ++ tag ++ ">")%string.

(** [pat] differs from [s] at a position that both have: [pat] is not
    read at the start of [s], whatever follows [s]. *)
Fixpoint clash (pat s : string) : bool :=
  match pat, s with
  | String p pat', String c s' => negb (Ascii.eqb p c) || clash pat' s'
  | _, _ => false
  end.

(** No occurrence of [pat] starts inside [s], whatever follows [s]. *)
Fixpoint misses (pat s : string) : bool :=
  match s with
  | EmptyString => true
  | String _ s' => clash pat s && misses pat s'
  end.

(** How a sitemap is written: the text of a [<url>] block for an entry,
    and of a [<urlset>] document (with the attributes [attrs] of its root
    element) for a list of entries. *)
Definition render_field (tag v : string) : string :=
  "<" ++ tag ++ ">" ++ v ++ "</" ++ tag ++ ">".

Definition render_url (e : SitemapEntry) : string :=
  "<url>" ++ render_field "loc" (loc e)
  ++ render_field "lastmod" (lastmod e)
  ++ render_field "changefreq" (changefreq e)
  ++ render_field "priority" (priority e) ++ "</url>".

Fixpoint concat_str (l : list string) : string :=
  match l with
  | [] => EmptyString
  | x :: l' => x ++ concat_str l'
  end.

Definition render_urlset (attrs : string) (es : list SitemapEntry) : string :=
  "<urlset" ++ attrs ++ ">" ++ concat_str (map render_url es) ++ "</urlset>".

(** An entry that can be written and read back: no field holds a [<], and
    the location is not empty and has no whitespace around it. *)
Definition entry_ok (e : SitemapEntry) : Prop :=
  trimmed_by ws ws (loc e)
  /\ no_lt (loc e) = true /\ no_lt (lastmod e) = true
  /\ no_lt (changefreq e) = true /\ no_lt (priority e) = true.

(** How a sitemap index is written: a [<sitemap>] block per nested
    sitemap. *)
Definition render_sitemap (u : string) : string :=
  "<sitemap>" ++ render_field "loc" u ++ "</sitemap>".

Definition render_sitemapindex (attrs : string) (us : list string) : string :=
  "<sitemapindex" ++ attrs ++ ">" ++ concat_str (map render_sitemap us)
  ++ "</sitemapindex>".

Definition loc_ok (u : string) : Prop :=
  trimmed_by ws ws u /\ no_lt u = true.

End Sitemap.

(** ** thread_utils.hpp / thread_utils.cpp: the URL priority queue *)

Module UrlQueue.

(** URL Queue Entry - scheduling and retry tracking. *)
Record UrlQueueEntry := mkUrl {
  url : string;
  retry_count : Z;
  is_update : bool;
  earliest_fetch : Z
}.

#[export] Instance UrlQueueEntry_inhabited : Inhabited UrlQueueEntry :=
  populate (mkUrl EmptyString 0 false 0).

(** [operator>]: earlier times have higher priority. *)
Definition entry_gt (a b : UrlQueueEntry) : bool :=
  (earliest_fetch a >? earliest_fetch b)%Z.

(** [std::greater<UrlQueueEntry>], the comparator of the priority queue. *)
Definition comp : UrlQueueEntry -> UrlQueueEntry -> bool := entry_gt.

(** *** <bits/stl_heap.h>: the heap algorithms behind
        [std::priority_queue], on the underlying [std::vector]. *)

(** The loop of [std::__push_heap]. The hole moves to its parent in every
    iteration, so [fuel = holeIndex] iterations are never used up. *)
Fixpoint push_heap_loop (fuel : nat) (first : list UrlQueueEntry)
  (holeIndex topIndex : nat) (value : UrlQueueEntry) : list UrlQueueEntry :=
  let parent := (holeIndex - 1) / 2 in
  match fuel with
  | S fuel' =>
      if (topIndex <? holeIndex) && comp (first !!! parent) value
      then push_heap_loop fuel' (<[holeIndex := first !!! parent]> first)
                          parent topIndex value
      else <[holeIndex := value]> first
  | O => <[holeIndex := value]> first
  end.

Definition __push_heap (first : list UrlQueueEntry)
  (holeIndex topIndex : nat) (value : UrlQueueEntry) : list UrlQueueEntry :=
  push_heap_loop holeIndex first holeIndex topIndex value.

(** [std::push_heap(first, last, comp)]: the new element is the last one. *)
Definition push_heap (c : list UrlQueueEntry) : list UrlQueueEntry :=
  let value := c !!! (length c - 1) in
  __push_heap c (length c - 1) 0 value.

(** The first loop of [std::__adjust_heap]: the hole descends to the child
    that [comp] does not order after its sibling. [secondChild] at least
    doubles in every iteration, so [fuel = len] is never used up. *)
Fixpoint adjust_heap_loop (fuel : nat) (first : list UrlQueueEntry)
  (holeIndex secondChild len : nat) : list UrlQueueEntry * nat * nat :=
  match fuel with
  | S fuel' =>
      if secondChild <? (len - 1) / 2 then
        let secondChild := 2 * (secondChild + 1) in
        let secondChild :=
          if comp (first !!! secondChild) (first !!! (secondChild - 1))
          then secondChild - 1 else secondChild in
        adjust_heap_loop fuel' (<[holeIndex := first !!! secondChild]> first)
                         secondChild secondChild len
      else (first, holeIndex, secondChild)
  | O => (first, holeIndex, secondChild)
  end.

Definition __adjust_heap (first : list UrlQueueEntry)
  (holeIndex len : nat) (value : UrlQueueEntry) : list UrlQueueEntry :=
  let topIndex := holeIndex in
  let '(first, holeIndex, secondChild) :=
    adjust_heap_loop len first holeIndex holeIndex len in
  let '(first, holeIndex) :=
    if Nat.even len && (secondChild =? (len - 2) / 2) then
      let secondChild := 2 * (secondChild + 1) in
      (<[holeIndex := first !!! (secondChild - 1)]> first, secondChild - 1)
    else (first, holeIndex) in
  __push_heap first holeIndex topIndex value.

(** [std::pop_heap(first, last, comp)]: the top goes to the last position,
    the rest is a heap again. *)
Definition pop_heap (c : list UrlQueueEntry) : list UrlQueueEntry :=
  if 1 <? length c then
    let last := length c - 1 in
    let value := c !!! last in
    let c := <[last := c !!! 0]> c in
    __adjust_heap c 0 last value
  else c.

(** [std::priority_queue]: [push] is [push_back] then [push_heap]; [pop] is
    [pop_heap] then [pop_back]; [top] is [front]. *)
Definition pq_push (c : list UrlQueueEntry) (x : UrlQueueEntry)
  : list UrlQueueEntry :=
  push_heap (c ++ [x]).

Definition pq_top (c : list UrlQueueEntry) : UrlQueueEntry := c !!! 0.

Definition pq_pop (c : list UrlQueueEntry) : list UrlQueueEntry :=
  removelast (pop_heap c).

Definition pq_empty (c : list UrlQueueEntry) : bool :=
  match c with [] => true | _ => false end.

(** *** ThreadSafeUrlQueue. Every member function runs under [mutex_], so
        the queue is a state machine whose steps are the member functions. *)

Record ThreadSafeUrlQueue := mkQueue {
  queue_ : list UrlQueueEntry;
  shutdown_ : bool
}.

Definition queue_init : ThreadSafeUrlQueue := mkQueue [] false.

Definition Push (q : ThreadSafeUrlQueue) (entry : UrlQueueEntry)
  : ThreadSafeUrlQueue :=
  mkQueue (pq_push (queue_ q) entry) (shutdown_ q).

(** The result is the returned [bool] with the value stored in [entry]
    ([None] is [false], [entry] untouched), and the queue afterwards. *)
Definition TryPop (q : ThreadSafeUrlQueue)
  : option UrlQueueEntry * ThreadSafeUrlQueue :=
  if pq_empty (queue_ q) then (None, q)
  else (Some (pq_top (queue_ q)), mkQueue (pq_pop (queue_ q)) (shutdown_ q)).

(** [q] is the queue when [cv_.wait_for] returns: either its predicate
    [!queue_.empty() || shutdown_] holds, or the timeout has expired with
    the predicate still false. *)
Definition WaitAndPop (q : ThreadSafeUrlQueue)
  : option UrlQueueEntry * ThreadSafeUrlQueue :=
  if negb (negb (pq_empty (queue_ q)) || shutdown_ q) then (None, q)
  else if shutdown_ q && pq_empty (queue_ q) then (None, q)
  else (Some (pq_top (queue_ q)), mkQueue (pq_pop (queue_ q)) (shutdown_ q)).

Definition Shutdown (q : ThreadSafeUrlQueue) : ThreadSafeUrlQueue :=
  mkQueue (queue_ q) true.

Definition Empty (q : ThreadSafeUrlQueue) : bool := pq_empty (queue_ q).
Definition Size (q : ThreadSafeUrlQueue) : nat := length (queue_ q).

(** The calls a client can make, and running a sequence of them from a
    queue; the run collects what the pops returned. *)
Inductive op :=
| OpPush (entry : UrlQueueEntry)
| OpTryPop
| OpWaitAndPop
| OpShutdown.

Definition step (q : ThreadSafeUrlQueue) (o : op)
  : option UrlQueueEntry * ThreadSafeUrlQueue :=
  match o with
  | OpPush e => (None, Push q e)
  | OpTryPop => TryPop q
  | OpWaitAndPop => WaitAndPop q
  | OpShutdown => (None, Shutdown q)
  end.

Fixpoint run (q : ThreadSafeUrlQueue) (ops : list op)
  : list (option UrlQueueEntry) * ThreadSafeUrlQueue :=
  match ops with
  | [] => ([], q)
  | o :: ops' =>
      let '(r, q') := step q o in
      let '(rs, q'') := run q' ops' in
      (r :: rs, q'')
  end.

(** The heap order of the vector under [comp]: no element is ordered
    before its parent. *)
Definition is_heap (c : list UrlQueueEntry) : Prop :=
  forall i, 0 < i < length c ->
    comp (c !!! ((i - 1) / 2)) (c !!! i) = false.

#[export] Instance UrlQueueEntry_eq_dec : EqDecision UrlQueueEntry.
Proof. solve_decision. Defined.

(** The key the queue orders by. *)
Definition key (e : UrlQueueEntry) : Z := earliest_fetch e.

(** The first [len] elements are in heap order. *)
Definition heap_upto (len : nat) (c : list UrlQueueEntry) : Prop :=
  forall i, 0 < i < len ->
    (key (c !!! ((i - 1) / 2)%nat) <= key (c !!! i))%Z.

(** Occurrences of [y] in [c]. *)
Definition cnt (c : list UrlQueueEntry) (y : UrlQueueEntry) : nat :=
  count_occ UrlQueueEntry_eq_dec c y.

(** 1 when [x] is [y], else 0. *)
Definition one_if (x y : UrlQueueEntry) : nat :=
  if decide (x = y) then 1 else 0.

(** The vector with a hole at [h] that waits for [v]: every edge that does
    not touch the hole is in order, and the children of the hole are not
    before [v] nor before the parent of the hole. *)
Record up_inv (len : nat) (c : list UrlQueueEntry) (h : nat)
  (v : UrlQueueEntry) : Prop := mk_up_inv {
  up_edges : forall i, 0 < i < len -> i <> h -> ((i - 1) / 2)%nat <> h ->
    (key (c !!! ((i - 1) / 2)%nat) <= key (c !!! i))%Z;
  up_below : forall i, 0 < i < len -> ((i - 1) / 2)%nat = h ->
    (key v <= key (c !!! i))%Z;
  up_grand : forall i, 0 < i < len -> ((i - 1) / 2)%nat = h -> 0 < h ->
    (key (c !!! ((h - 1) / 2)%nat) <= key (c !!! i))%Z
}.

(** The entries a sequence of calls pushed, and the entries its pops
    returned, in order. *)
Definition pushed_entries (ops : list op) : list UrlQueueEntry :=
  flat_map (fun o => match o with OpPush e => [e] | _ => [] end) ops.

Definition popped_entries (rs : list (option UrlQueueEntry))
  : list UrlQueueEntry :=
  flat_map (fun r => match r with Some e => [e] | None => [] end) rs.

End UrlQueue.

(** ** Retry backoff (TODO.md, section 8.2) *)

Module Backoff.
Local Open Scope Z_scope.

(** The value of an [int] expression after 32-bit two's complement
    wrap-around. *)
Definition wrap32 (z : Z) : Z := (z + 2 ^ 31) mod 2 ^ 32 - 2 ^ 31.

(** The [for (int i = 2; i <= n; i++)] loop; [fuel] bounds the number of
    iterations, [n - 1] of them are needed (for [n] below [INT_MAX], where
    [i++] does not overflow). *)
Fixpoint fib_loop (fuel : nat) (i n a b max_seconds : Z) : Z :=
  match fuel with
  | O => Z.min b max_seconds
  | S fuel' =>
      if i <=? n then
        let temp := wrap32 (a + b) in
        let a := b in
        let b := temp in
        if b >? max_seconds then max_seconds
        else fib_loop fuel' (wrap32 (i + 1)) n a b max_seconds
      else Z.min b max_seconds
  end.

Definition FibonacciBackoffSeconds (n max_seconds : Z) : Z :=
  if n <=? 1 then 3
  else fib_loop (Z.to_nat (n - 1)) 2 n 3 3 max_seconds.

(** The documented sequence "3, 3, 6, 9, 15, 24, 39, 63, 102, 165, 267,
    ..." (starting [a = 3], [b = 3]); [documented_seq k] is its element
    number [k + 1]. *)
Fixpoint documented_pair (k : nat) : Z * Z :=
  match k with
  | O => (3, 3)
  | S k' => let '(a, b) := documented_pair k' in (b, a + b)
  end.

Definition documented_seq (k : nat) : Z := fst (documented_pair k).

(** The n-th retry delay of the specification: the n-th element of the
    sequence, capped. *)
Definition spec_backoff (n max_seconds : Z) : Z :=
  Z.min (documented_seq (Z.to_nat (n - 1))) max_seconds.

End Backoff.

(** ** crawl_stream_function.cpp: the streaming crawl worker *)

Module CrawlStream.
Import Str Double Robots.

(** What the worker reads of the HTTP response. *)
Record HttpResponse := mkResponse {
  success : bool;
  resp_status_code : Z;
  resp_content_type : string;
  resp_body : string;
  resp_error : string;
  resp_final_url : string;
  resp_redirect_count : Z
}.

Record BatchCrawlEntry := mkRow {
  url : string;
  status_code : Z;
  content_type : string;
  body : string;
  error : string;
  elapsed_ms : Z;
  final_url : string;
  redirect_count : Z;
  jsonld : string;
  opengraph : string
}.

(** Bind data for streaming crawl. *)
Record CrawlStreamBindData := mkBind {
  urls : list string;
  user_agent : string;
  respect_robots_txt : bool
}.

(** The fields of [DomainState] the worker uses. *)
Record DomainState := mkDomain {
  rules : RobotsRules;
  robots_fetched : bool
}.

Definition DomainState_init : DomainState := mkDomain RobotsRules_init false.

(** The worker's locals and the shared result queue. *)
Record WorkerState := mkWorker {
  domain_states : gmap string DomainState;
  results : list BatchCrawlEntry
}.

Section Worker.

(** Collaborators declared in headers outside this development:
    [RetryConfig] with its default value and the assignment to its
    [max_retries], [HttpClient::Fetch], [ExtractDomain], [ExtractPath], the
    two extractors, and [std::stod]. *)
Variable RetryConfig : Type.
Variable RetryConfig_init : RetryConfig.
Variable set_max_retries : Z -> RetryConfig -> RetryConfig.
Variable Fetch : string -> RetryConfig -> string -> HttpResponse.
Variable ExtractDomain : string -> string.
Variable ExtractPath : string -> string.
Variable ExtractJsonLdWithRust : string -> string.
Variable ExtractOpenGraphWithRust : string -> string.
Variable stod : string -> option double.

(** [domain_states.GetOrCreate(domain)]. *)
Definition GetOrCreate (m : gmap string DomainState) (domain : string)
  : gmap string DomainState * DomainState :=
  match m !! domain with
  | Some s => (m, s)
  | None => (<[domain := DomainState_init]> m, DomainState_init)
  end.

(** "Check robots.txt if needed": the value of [robots_allow] and the
    domain table afterwards. *)
Definition check_robots (bind_data : CrawlStreamBindData)
  (m : gmap string DomainState) (u : string)
  : bool * gmap string DomainState :=
  let domain := ExtractDomain u in
  if respect_robots_txt bind_data then
    let '(m, domain_state) := GetOrCreate m domain in
    let domain_state :=
      if robots_fetched domain_state then domain_state
      else
        let robots_url := "https://" ++ domain ++ "/robots.txt" in
        let retry_config := RetryConfig_init in
        let response := Fetch robots_url retry_config (user_agent bind_data) in
        let rules' :=
          if success response then
            GetRulesForUserAgent (Parse stod (resp_body response))
                                 (user_agent bind_data)
          else rules domain_state in
        mkDomain rules' true in
    (IsAllowed (rules domain_state) (ExtractPath u),
     <[domain := domain_state]> m)
  else (true, m).

Definition contains (s pat : string) : bool :=
  match find s pat 0 with Some _ => true | None => false end.

(** "Fetch the URL", "Build result entry". *)
Definition fetch_entry (bind_data : CrawlStreamBindData) (u : string)
  : BatchCrawlEntry :=
  let retry_config := set_max_retries 2 RetryConfig_init in
  let response := Fetch u retry_config (user_agent bind_data) in
  let is_html :=
    success response && negb (empty (resp_body response))
    && (contains (resp_content_type response) "text/html"
        || contains (resp_content_type response) "application/xhtml") in
  mkRow u (resp_status_code response) (resp_content_type response)
        (resp_body response) (resp_error response) 0
        (resp_final_url response) (resp_redirect_count response)
        (if is_html then ExtractJsonLdWithRust (resp_body response)
         else EmptyString)
        (if is_html then ExtractOpenGraphWithRust (resp_body response)
         else EmptyString).

(** One iteration of the worker loop, for the URL it has drawn. *)
Definition worker_iteration (bind_data : CrawlStreamBindData)
  (st : WorkerState) (u : string) : WorkerState :=
  let '(robots_allow, m) := check_robots bind_data (domain_states st) u in
  if negb robots_allow then
    (* continue *)
    mkWorker m (results st)
  else
    mkWorker m (results st ++ [fetch_entry bind_data u])%list.

(** The loop of one worker that draws every index of [bind_data.urls] in
    turn, with [should_stop] never set. *)
Definition StreamCrawlWorker (bind_data : CrawlStreamBindData) : WorkerState :=
  fold_left (worker_iteration bind_data) (urls bind_data) (mkWorker ∅ []).

(** What the robots check comes to for a domain and for a URL: the rules
    read from the domain's robots.txt for this user agent (the empty rules
    when the fetch fails), and whether they allow the URL's path. *)
Definition robots_rules (bind_data : CrawlStreamBindData) (domain : string)
  : RobotsRules :=
  let response := Fetch ("https://" ++ domain ++ "/robots.txt")
                        RetryConfig_init (user_agent bind_data) in
  if success response then
    GetRulesForUserAgent (Parse stod (resp_body response))
                         (user_agent bind_data)
  else RobotsRules_init.

Definition robots_allows (bind_data : CrawlStreamBindData) (u : string)
  : bool :=
  if respect_robots_txt bind_data then
    IsAllowed (robots_rules bind_data (ExtractDomain u)) (ExtractPath u)
  else true.

(** Every domain the worker has met holds its robots.txt rules. *)
Definition cache_ok (bind_data : CrawlStreamBindData)
  (m : gmap string DomainState) : Prop :=
  forall d s, m !! d = Some s -> s = mkDomain (robots_rules bind_data d) true.

End Worker.


(** *** StreamResultQueue: the thread-safe result queue. Its member
        functions run under [mutex]; [finished] and [active_workers] are
        the atomics. *)
Record StreamResultQueue := mkResults {
  rq_results : list BatchCrawlEntry;    (* std::queue, front first *)
  rq_finished : bool;
  rq_active_workers : Z
}.

Definition rq_init : StreamResultQueue := mkResults [] false 0.

Definition rq_Push (q : StreamResultQueue) (entry : BatchCrawlEntry)
  : StreamResultQueue :=
  mkResults (rq_results q ++ [entry])%list (rq_finished q)
            (rq_active_workers q).

Definition rq_IsComplete (q : StreamResultQueue) : bool :=
  rq_finished q && (rq_active_workers q =? 0)%Z.

(** [q] is the queue when [cv.wait_for] returns, with its predicate true
    or the timeout expired. [None] is [false]. *)
Definition rq_TryPop (q : StreamResultQueue)
  : option BatchCrawlEntry * StreamResultQueue :=
  match rq_results q with
  | [] => (None, q)
  | front :: rest =>
      (Some front, mkResults rest (rq_finished q) (rq_active_workers q))
  end.

(** The calls on the result queue while the workers run, and a run of
    them. *)
Inductive rq_op :=
| RqPush (entry : BatchCrawlEntry)
| RqTryPop.

Definition rq_step (q : StreamResultQueue) (o : rq_op)
  : option BatchCrawlEntry * StreamResultQueue :=
  match o with
  | RqPush e => (None, rq_Push q e)
  | RqTryPop => rq_TryPop q
  end.

Fixpoint rq_run (q : StreamResultQueue) (ops : list rq_op)
  : list (option BatchCrawlEntry) * StreamResultQueue :=
  match ops with
  | [] => ([], q)
  | o :: ops' =>
      let '(r, q') := rq_step q o in
      let '(rs, q'') := rq_run q' ops' in
      (r :: rs, q'')
  end.

(** The entries a run pushed, and the entries its pops returned, in
    order. *)
Definition rq_pushed (ops : list rq_op) : list BatchCrawlEntry :=
  flat_map (fun o => match o with RqPush e => [e] | RqTryPop => [] end) ops.

Definition popped {A : Type} (rs : list (option A)) : list A :=
  flat_map (fun r => match r with Some e => [e] | None => [] end) rs.

(** The number of worker threads [CrawlStreamFunction] starts. *)
Definition num_workers (n_urls : Z) : Z :=
  let n := Z.min n_urls 4 in
  if (n <? 1)%Z then 1%Z else n.

End CrawlStream.

(** ** std::stod on plain decimal literals *)

Module Stod.
Import Str Double.

Definition digit (c : ascii) : option Z :=
  let n := nat_of_ascii c in
  if (48 <=? n) && (n <=? 57) then Some (Z.of_nat (n - 48)) else None.

(** Read a run of decimal digits: the number read on top of [acc], how
    many digits were read, and the rest of the string. *)
Fixpoint digits (s : string) (acc : Z) (count : nat) : Z * nat * string :=
  match s with
  | EmptyString => (acc, count, s)
  | String c s' =>
      match digit c with
      | Some d => digits s' (10 * acc + d)%Z (S count)
      | None => (acc, count, s)
      end
  end.

Fixpoint skip_space (s : string) : string :=
  match s with
  | String c s' => if isspace c then skip_space s' else s
  | EmptyString => s
  end.

(** [std::stod] on a literal of the shape [ws* sign? digits (. digits)?]
    with at most 15 digits: the quotient of two integers that binary64
    represents exactly, rounded once. A string that does not start with a
    number makes [std::stod] throw ([None]). Other notations that
    [std::stod] reads (exponents, hexadecimal, inf, nan) and longer
    literals are outside this model; it is used on concrete inputs only,
    and the parser's theorems hold for every [stod]. *)
Definition stod (s : string) : option double :=
  let s := skip_space s in
  let '(neg, s) :=
    match s with
    | String "-" s' => (true, s')
    | String "+" s' => (false, s')
    | _ => (false, s)
    end in
  let '(ip, n1, rest) := digits s 0%Z 0 in
  let '(mant, n2, _) :=
    match rest with
    | String "." r => digits r ip 0
    | _ => (ip, 0, rest)
    end in
  if n1 + n2 =? 0 then None
  else
    let v := div (of_Z mant) (of_Z (10 ^ Z.of_nat n2)) in
    Some (if neg then SFopp v else v).

End Stod.

(** ** thread_utils.hpp / thread_utils.cpp: the domain state map *)

Module DomainMap.
Import Double Robots.

(** Domain State - rate limiting and 429 handling per domain (the mutex
    is not part of the value). *)
Record DomainState := mkDomainState {
  last_crawl_time : Z;
  crawl_delay_seconds : double;
  rules : RobotsRules;
  robots_fetched : bool;
  urls_crawled : Z;
  urls_failed : Z;
  urls_skipped : Z;
  blocked_until : Z;
  consecutive_429s : Z;
  has_crawl_delay : bool;
  active_requests : Z;
  average_response_ms : double;
  min_crawl_delay_seconds : double;
  response_count : Z
}.

(** [DomainState()] with the default member initialisers. *)
Definition DomainState_init : DomainState :=
  mkDomainState 0 (of_Z 1) RobotsRules_init false 0 0 0 0 0 false 0
                zero zero 0.

(** [domain_states_], from a domain to the state its [unique_ptr] owns. *)
Definition ThreadSafeDomainMap : Type := gmap string DomainState.

(** The map afterwards and the state the returned reference designates. *)
Definition GetOrCreate (m : ThreadSafeDomainMap) (domain : string)
  : ThreadSafeDomainMap * DomainState :=
  match m !! domain with
  | None => (<[domain := DomainState_init]> m, DomainState_init)
  | Some s => (m, s)
  end.

(** [None] is [nullptr]. *)
Definition TryGet (m : ThreadSafeDomainMap) (domain : string)
  : option DomainState :=
  m !! domain.

Definition InitializeFromDiscovery (m : ThreadSafeDomainMap)
  (domain : string) (src : DomainState) : ThreadSafeDomainMap :=
  let state := match m !! domain with
               | Some s => s
               | None => DomainState_init
               end in
  (* Copy fields (but not mutex) *)
  <[domain := mkDomainState (last_crawl_time src) (crawl_delay_seconds src)
                (rules src) (robots_fetched src)
                (urls_crawled state) (urls_failed state) (urls_skipped state)
                (blocked_until state) (consecutive_429s state)
                (has_crawl_delay src) (active_requests state)
                (average_response_ms state) (min_crawl_delay_seconds src)
                (response_count state)]> m.

(** The state of a domain before a call, the default one when the map
    has none. *)
Definition state_before (m : ThreadSafeDomainMap) (domain : string)
  : DomainState :=
  default DomainState_init (TryGet m domain).

End DomainMap.

(** ** css_extract_function.cpp: the value [jq(html, selector, attr)]
       returns *)

Module JqAttr.
Import Str.

Definition backslash : ascii := ascii_of_nat 92.
Definition quote : ascii := ascii_of_nat 34.

(** "Unescape JSON string escapes": the loop over [unquoted]. *)
Fixpoint unescape (unquoted : string) : string :=
  match unquoted with
  | EmptyString => EmptyString
  | String c rest =>
      if Ascii.eqb c backslash then
        match rest with
        | EmptyString => String c EmptyString
        | String next rest' =>
            if Ascii.eqb next quote || Ascii.eqb next backslash
               || Ascii.eqb next "/"
            then String next (unescape rest')
            else if Ascii.eqb next "n"
            then String (ascii_of_nat 10) (unescape rest')
            else if Ascii.eqb next "r"
            then String (ascii_of_nat 13) (unescape rest')
            else if Ascii.eqb next "t"
            then String (ascii_of_nat 9) (unescape rest')
            else String c (unescape rest)
        end
      else String c (unescape rest)
  end.

(** What the lambda makes of the JSON text the extractor returned for the
    attribute; the empty string is [string_t()]. *)
Definition decode_element (element_json : string) : string :=
  if String.eqb element_json "null" || empty element_json then EmptyString
  else
    match element_json with
    | String first _ =>
        if (2 <=? String.length element_json) && Ascii.eqb first quote
           && match back element_json with
              | Some last => Ascii.eqb last quote
              | None => false
              end
        then
          (* Rust returns quoted JSON string, unquote it *)
          unescape (substr 1 (String.length element_json - 2) element_json)
        else element_json
    | EmptyString => EmptyString
    end.

(** How a JSON writer escapes the characters whose escapes the loop
    knows: the quote, the backslash, newline, carriage return and tab. *)
Fixpoint json_escape (s : string) : string :=
  match s with
  | EmptyString => EmptyString
  | String c s' =>
      if Ascii.eqb c quote || Ascii.eqb c backslash
      then String backslash (String c (json_escape s'))
      else if Ascii.eqb c (ascii_of_nat 10)
      then String backslash (String "n" (json_escape s'))
      else if Ascii.eqb c (ascii_of_nat 13)
      then String backslash (String "r" (json_escape s'))
      else if Ascii.eqb c (ascii_of_nat 9)
      then String backslash (String "t" (json_escape s'))
      else String c (json_escape s')
  end.

End JqAttr.

(** ** Concrete inputs used in the examples *)

Module Samples.
Import Str Double Robots CrawlStream.


Definition block_my : RobotsRules := mkRules minus_one minus_one ["/"] [].
Definition block_mybot : RobotsRules := mkRules minus_one minus_one [] ["/"].

(** The map holding the blocks [my] and [mybot], visited in this order. *)
Definition two_blocks : RobotsData :=
  mkData [("my", block_my); ("mybot", block_mybot)] [].

(** A sitemap whose fields carry surrounding blanks. *)
Definition sample_urlset : string :=
  "<urlset><url><loc> http://a/1 </loc><lastmod> 2024-01-01 </lastmod><changefreq> daily </changefreq><priority> 0.5 </priority></url></urlset>".

(** A host [h] whose robots.txt disallows [/private], and the seed
    [https://h/private/x]. *)
Definition robots_body : string :=
  "User-agent: *" ++ String newline "Disallow: /private".

Definition ok_response (body : string) : HttpResponse :=
  mkResponse true 200 "text/html" body "" "" 0.

Definition Fetch_h (u : string) (retry_config : unit) (user_agent : string)
  : HttpResponse :=
  if String.eqb u "https://h/robots.txt" then
    mkResponse true 200 "text/plain" robots_body "" u 0
  else ok_response "<html></html>".

Definition ExtractDomain_h (u : string) : string := "h".
Definition ExtractPath_h (u : string) : string :=
  substr_from 9 u.

Definition seed : CrawlStreamBindData :=
  mkBind ["https://h/private/x"] "DuckDB-Crawler/1.0" true.

(** A server that answers no request. *)
Definition Fetch_down (u : string) (retry_config : unit) (user_agent : string)
  : HttpResponse :=
  mkResponse false 0 "" "" "connection refused" "" 0.

End Samples.

(** * Properties *)

(** ** Path decision (IsAllowed) *)

Module IsAllowedFacts.
Import Str Double Robots RobotsSpec.

Lemma find_scan_ge pat s i j : find_scan pat s i = Some j -> i <= j.
Proof.
  revert i. induction s as [|c s IH]; intros i; simpl.
  - destruct (starts_with pat ""); [intros [= <-]; lia | discriminate].
  - destruct (starts_with pat (String c s)); [intros [= <-]; lia |].
    intros H. apply IH in H. lia.
Qed.

(** [path.find(rule) == 0] says that [rule] is a literal prefix of
    [path]. *)
Lemma find_zero_is_prefix path rule :
  find_is_zero (find path rule 0) = starts_with rule path.
Proof.
  unfold find. simpl.
  destruct path as [|c s]; simpl.
  - destruct (starts_with rule ""); reflexivity.
  - destruct (starts_with rule (String c s)); [reflexivity |].
    destruct (find_scan rule s 1) as [j|] eqn:E; [|reflexivity].
    apply find_scan_ge in E. destruct j; [lia | reflexivity].
Qed.

Lemma fold_longer_None (m : string -> bool) rules acc :
  fold_left (fun best r => if m r then longer best r else best) rules acc = None
  <-> acc = None /\ existsb m rules = false.
Proof.
  revert acc. induction rules as [|r rules IH]; intros acc; simpl.
  - intuition.
  - rewrite IH. destruct (m r); simpl.
    + split; [|intros [_ [=]]].
      intros [H _]. exfalso. destruct acc as [b|]; simpl in H; [|discriminate].
      destruct (String.length b <? String.length r); discriminate.
    + reflexivity.
Qed.

Lemma longest_match_None m rules :
  longest_match m rules = None <-> existsb m rules = false.
Proof.
  unfold longest_match. rewrite fold_longer_None. intuition.
Qed.

(** The longest match is one of the rules, matches, and no matching rule
    is longer. *)
Lemma fold_longer_Some (m : string -> bool) rules acc best :
  fold_left (fun best r => if m r then longer best r else best) rules acc
    = Some best ->
  (acc = Some best \/ (In best rules /\ m best = true))
  /\ (forall r, In r rules -> m r = true ->
        String.length r <= String.length best)
  /\ (forall a, acc = Some a -> String.length a <= String.length best).
Proof.
  revert acc. induction rules as [|r rules IH]; intros acc; simpl.
  - intros ->. split; [auto|]. split; [tauto|]. intros a [= ->]. lia.
  - intros H. apply IH in H. destruct H as (H1 & H2 & H3).
    destruct (m r) eqn:Em.
    + assert (Hr : String.length r <= String.length best).
      { destruct acc as [a|]; simpl in *.
        - destruct (String.length a <? String.length r) eqn:E.
          + apply (H3 r). reflexivity.
          + apply Nat.ltb_ge in E. specialize (H3 a eq_refl). lia.
        - apply (H3 r). reflexivity. }
      split; [|split].
      * destruct H1 as [H1 | [H1 H1']]; [|auto].
        destruct acc as [a|]; simpl in H1.
        -- destruct (String.length a <? String.length r).
           ++ injection H1 as <-. auto.
           ++ auto.
        -- injection H1 as <-. auto.
      * intros r' [<- | Hin] Hm; [exact Hr | auto].
      * intros a ->. simpl in H3.
        destruct (String.length a <? String.length r) eqn:E.
        -- apply Nat.ltb_lt in E. lia.
        -- apply (H3 a). reflexivity.
    + split; [|split].
      * destruct H1 as [H1 | [H1 H1']]; auto.
      * intros r' [<- | Hin] Hm; [congruence | auto].
      * exact H3.
Qed.

Lemma longest_match_Some m rules best :
  longest_match m rules = Some best ->
  In best rules /\ m best = true
  /\ forall r, In r rules -> m r = true ->
       String.length r <= String.length best.
Proof.
  intros H. apply fold_longer_Some in H. destruct H as ([H | [H H']] & H2 & _).
  - discriminate.
  - auto.
Qed.

Lemma existsb_pointwise {A} (f g : A -> bool) l :
  (forall x, f x = g x) -> existsb f l = existsb g l.
Proof.
  intros H. induction l as [|x l IH]; simpl; [reflexivity|].
  rewrite H, IH. reflexivity.
Qed.

Lemma existsb_filter_nonempty (m : string -> bool) rules :
  existsb (fun d => negb (empty d) && m d) rules
  = existsb m (List.filter (fun d => negb (empty d)) rules).
Proof.
  induction rules as [|r rules IH]; simpl; [reflexivity|].
  destruct (empty r); simpl; rewrite IH; reflexivity.
Qed.

(** C1, counterexample: with the rule [Disallow: /a$] the specification's
    anchored match denies the path [/a]; the code reads [$] as an ordinary
    character, finds no match, and allows. *)
Lemma IsAllowed_anchor_counterexample :
  let rules := mkRules minus_one minus_one ["/a$"] [] in
  IsAllowed rules "/a" = true /\ spec_IsAllowed rules "/a" = false.
Proof. split; reflexivity. Qed.

(** An empty Disallow entry is a prefix of every path, yet the code skips
    it. *)
Lemma IsAllowed_empty_disallow :
  let rules := mkRules minus_one minus_one [""] [] in
  IsAllowed rules "/a" = true
  /\ path_decision starts_with (allow rules) (disallow rules) "/a" = false.
Proof. split; reflexivity. Qed.

(** C1, amended: IsAllowed is the longest-match decision (longest matching
    Allow wins over any Disallow, else longest matching Disallow denies,
    else allow) where a rule matches when it is a literal prefix of the
    path, a [$] being an ordinary character, and where empty Disallow
    entries are ignored. *)
Theorem IsAllowed_literal_prefix_decision (rules : RobotsRules) (path : string) :
  IsAllowed rules path
  = path_decision starts_with (allow rules)
      (List.filter (fun d => negb (empty d)) (disallow rules)) path.
Proof.
  unfold IsAllowed, path_decision.
  rewrite (existsb_pointwise _ (fun a => starts_with a path)) by
    (intros a; apply find_zero_is_prefix).
  rewrite (existsb_pointwise (fun d => negb (empty d) && find_is_zero (find path d 0))
                    (fun d => negb (empty d) && starts_with d path)) by
    (intros d; rewrite find_zero_is_prefix; reflexivity).
  rewrite (existsb_filter_nonempty (fun d => starts_with d path)).
  destruct (longest_match (fun r => starts_with r path) (allow rules)) eqn:Ea.
  - destruct (existsb (fun a => starts_with a path) (allow rules)) eqn:E;
      [reflexivity|].
    apply longest_match_None in E. congruence.
  - apply longest_match_None in Ea. rewrite Ea.
    destruct (longest_match (fun r => starts_with r path) _) eqn:Ed.
    + destruct (existsb _ (List.filter _ _)) eqn:E; [reflexivity|].
      apply longest_match_None in E. congruence.
    + apply longest_match_None in Ed. rewrite Ed. reflexivity.
Qed.

End IsAllowedFacts.

(** ** User-agent selection (GetRulesForUserAgent) *)

Module UserAgentFacts.
Import Str Double Robots RobotsSpec Samples.


(** It is what [Parse] builds from a robots.txt with these two blocks. *)
Lemma two_blocks_parsed :
  Parse Stod.stod
    ("User-agent: my" ++ String newline
     ("Disallow: /" ++ String newline
      ("User-agent: MyBot" ++ String newline
       "Allow: /")))
  = two_blocks.
Proof. reflexivity. Qed.

(** C3, counterexample: for the user-agent [MyBot/1.0] both [my] and
    [mybot] are prefixes; the specification selects the longer, [mybot];
    the code returns the first one its iteration meets, [my]. *)
Lemma GetRulesForUserAgent_not_longest :
  GetRulesForUserAgent two_blocks "MyBot/1.0" = block_my
  /\ spec_GetRulesForUserAgent two_blocks "MyBot/1.0" = block_mybot
  /\ block_my <> block_mybot.
Proof. split; [reflexivity | split; [reflexivity | discriminate]]. Qed.

Lemma find_Some_split {A} (f : A -> bool) l x :
  List.find f l = Some x ->
  exists l1 l2, l = (l1 ++ x :: l2)%list /\ f x = true
                /\ forall y, In y l1 -> f y = false.
Proof.
  induction l as [|y l IH]; simpl; [discriminate|].
  destruct (f y) eqn:E.
  - intros [= <-]. exists [], l. simpl. tauto.
  - intros H. destruct (IH H) as (l1 & l2 & -> & Hx & Hl1).
    exists (y :: l1), l2. split; [reflexivity|]. split; [exact Hx|].
    intros z [<- | Hz]; auto.
Qed.

Lemma find_None_all {A} (f : A -> bool) l :
  List.find f l = None -> forall x, In x l -> f x = false.
Proof.
  induction l as [|y l IH]; simpl; [tauto|].
  destruct (f y) eqn:E; [discriminate|].
  intros H x [<- | Hin]; auto.
Qed.

Lemma IsAllowed_init path : IsAllowed RobotsRules_init path = true.
Proof. reflexivity. Qed.

(** C3, amended: GetRulesForUserAgent selects the exact match on the
    lowercased user-agent; otherwise a block, other than [*], whose name is
    a prefix of the lowercased user-agent: the first such block that the
    iteration over the map meets, not necessarily the longest; otherwise
    the [*] block; otherwise empty rules, which allow every path. *)
Theorem GetRulesForUserAgent_selection (d : RobotsData) (user_agent : string) :
  let ua := ToLower user_agent in
  let r := GetRulesForUserAgent d user_agent in
  (forall exact, um_find ua (user_agents d) = Some exact -> r = exact)
  /\ (um_find ua (user_agents d) = None ->
      (exists e, In e (user_agents d) /\ prefix_block ua e) ->
      exists before e after,
        user_agents d = (before ++ e :: after)%list
        /\ prefix_block ua e
        /\ (forall e', In e' before -> ~ prefix_block ua e')
        /\ r = snd e)
  /\ (um_find ua (user_agents d) = None ->
      (forall e, In e (user_agents d) -> ~ prefix_block ua e) ->
      forall star, um_find "*" (user_agents d) = Some star -> r = star)
  /\ (um_find ua (user_agents d) = None ->
      (forall e, In e (user_agents d) -> ~ prefix_block ua e) ->
      um_find "*" (user_agents d) = None ->
      r = RobotsRules_init /\ forall path, IsAllowed r path = true).
Proof.
  intros ua r. subst r. unfold GetRulesForUserAgent. fold ua.
  set (p := fun entry : string * RobotsRules =>
              negb (String.eqb (fst entry) "*")
              && find_is_zero (find ua (fst entry) 0)).
  assert (Hp : forall e, p e = true <-> prefix_block ua e).
  { intros e. unfold p, prefix_block.
    rewrite IsAllowedFacts.find_zero_is_prefix, andb_true_iff, negb_true_iff.
    rewrite String.eqb_neq. reflexivity. }
  assert (Hnone : (forall e, In e (user_agents d) -> ~ prefix_block ua e) ->
                  List.find p (user_agents d) = None).
  { intros Hno. destruct (List.find p (user_agents d)) as [e'|] eqn:E;
      [|reflexivity].
    apply find_Some_split in E. destruct E as (l1 & l2 & Hl & Hp' & _).
    exfalso. apply (Hno e'); [|apply Hp, Hp'].
    rewrite Hl. apply in_or_app. right. left. reflexivity. }
  split; [|split; [|split]].
  - intros exact ->. reflexivity.
  - intros -> [e [Hin He]].
    destruct (List.find p (user_agents d)) as [e'|] eqn:E.
    + apply find_Some_split in E. destruct E as (l1 & l2 & Hl & Hp' & Hl1).
      exists l1, e', l2. split; [exact Hl|]. split; [apply Hp, Hp'|].
      split; [|reflexivity].
      intros e1 Hin1 Hpb. apply Hp in Hpb. rewrite (Hl1 e1 Hin1) in Hpb.
      discriminate.
    + exfalso. apply (find_None_all _ _ E) in Hin.
      apply Hp in He. congruence.
  - intros -> Hno star ->. rewrite (Hnone Hno). reflexivity.
  - intros -> Hno ->. rewrite (Hnone Hno).
    split; [reflexivity | apply IsAllowed_init].
Qed.

(** The selection at [two_blocks]: no exact match for [mybot/1.0], and the
    selected block is the first of the two prefix blocks. *)
Lemma GetRulesForUserAgent_selection_witness :
  exists before e after,
    user_agents two_blocks = (before ++ e :: after)%list
    /\ prefix_block (ToLower "MyBot/1.0") e
    /\ (forall e', In e' before -> ~ prefix_block (ToLower "MyBot/1.0") e')
    /\ GetRulesForUserAgent two_blocks "MyBot/1.0" = snd e.
Proof.
  apply (GetRulesForUserAgent_selection two_blocks "MyBot/1.0").
  - reflexivity.
  - exists ("my", block_my). split; [left; reflexivity|].
    split; [discriminate | reflexivity].
Defined.

End UserAgentFacts.

(** ** The robots.txt parser (Parse) *)

Module ParseFacts.
Import Str Double Robots RobotsSpec Samples.



Lemma um_find_update_eq k f m :
  um_find k (um_update k f m) = option_map f (um_find k m).
Proof.
  induction m as [|[k0 v] m IH]; simpl; [reflexivity|].
  destruct (String.eqb k k0) eqn:E; simpl; rewrite E; [reflexivity | exact IH].
Qed.


(** Two directive keys that differ in their first letter are never read
    from the same line. *)
Lemma starts_ci_exclusive line p ps q qs :
  tolower p <> tolower q ->
  StartsWithCaseInsensitive line (String p ps) = true ->
  StartsWithCaseInsensitive line (String q qs) = false.
Proof.
  intros Hne. destruct line as [|c rest]; simpl; [discriminate|].
  intros H. apply andb_true_iff in H. destruct H as [H _].
  apply Ascii.eqb_eq in H.
  destruct (Ascii.eqb (tolower c) (tolower q)) eqn:E; [|reflexivity].
  apply Ascii.eqb_eq in E. congruence.
Qed.

Ltac first_letter :=
  match goal with
  | H : StartsWithCaseInsensitive ?l _ = true
    |- StartsWithCaseInsensitive ?l _ = false =>
      eapply starts_ci_exclusive; [| exact H]; vm_compute; discriminate
  end.

Lemma starts_ci_nonempty line p ps :
  StartsWithCaseInsensitive line (String p ps) = true -> empty line = false.
Proof. destruct line; [discriminate | reflexivity]. Qed.



Section WithStod.
Variable stod : string -> option double.




(** A line that is not a [User-agent:] line keeps the current block. *)
Lemma parse_line_keeps_current st raw :
  is_user_agent_line raw = false ->
  current_rules (parse_line stod st raw) = current_rules st.
Proof.
  unfold is_user_agent_line. intros Hua. unfold parse_line.
  rewrite Hua. destruct st as [[uas sms] cur]; simpl.
  unfold on_crawl_delay, on_request_rate, on_disallow, on_allow, on_sitemap,
    set_rules.
  repeat match goal with
         | |- context [match ?x with _ => _ end] => destruct x; simpl
         end; reflexivity.
Qed.




Lemma is_comment_spec c rest : is_comment (String c rest) = Ascii.eqb c "#".
Proof.
  destruct c as [b0 b1 b2 b3 b4 b5 b6 b7].
  destruct b0, b1, b2, b3, b4, b5, b6, b7; reflexivity.
Qed.

(** A directive key starts with a letter, so its line is neither empty
    nor a comment. *)
Lemma starts_ci_not_skipped line p ps :
  tolower p <> "#"%char ->
  StartsWithCaseInsensitive line (String p ps) = true ->
  empty line || is_comment line = false.
Proof.
  intros Hp. destruct line as [|c rest]; [discriminate|].
  simpl StartsWithCaseInsensitive. intros H.
  apply andb_true_iff in H. destruct H as [H _]. apply Ascii.eqb_eq in H.
  rewrite is_comment_spec. simpl.
  destruct (Ascii.eqb_spec c "#") as [->|]; [|reflexivity].
  exfalso. apply Hp. rewrite <- H. reflexivity.
Qed.

Ltac not_skipped :=
  match goal with
  | H : StartsWithCaseInsensitive ?l _ = true
    |- empty ?l || is_comment ?l = false =>
      eapply starts_ci_not_skipped; [| exact H]; vm_compute; discriminate
  end.










(** A Crawl-delay line with a non-negative number sets the crawl delay of
    the current user-agent. *)
Lemma parse_line_crawl_delay st raw kb r d :
  StartsWithCaseInsensitive (Trim raw) "crawl-delay:" = true ->
  stod (ExtractValue (Trim raw) 12) = Some d -> ge d zero = true ->
  current_rules st = Some kb ->
  um_find kb (user_agents (data st)) = Some r ->
  um_find kb (user_agents (data (parse_line stod st raw)))
  = Some (mkRules d (request_rate r) (disallow r) (allow r)).
Proof.
  intros Hd Hv Hge Hc Hr. unfold parse_line.
  assert (Hs : empty (Trim raw) || is_comment (Trim raw) = false)
    by not_skipped.
  assert (H1 : StartsWithCaseInsensitive (Trim raw) "user-agent:" = false)
    by first_letter.
  rewrite Hs, H1, Hd, Hc. unfold on_crawl_delay. rewrite Hv, Hge.
  simpl. rewrite um_find_update_eq, Hr. reflexivity.
Qed.

(** A Request-rate line [n/m] with positive numbers sets the derived delay
    of the current user-agent to [m / n]. *)
Lemma parse_line_request_rate st raw kb r slash_pos n m :
  StartsWithCaseInsensitive (Trim raw) "request-rate:" = true ->
  find (ExtractValue (Trim raw) 13) "/" 0 = Some slash_pos ->
  stod (substr 0 slash_pos (ExtractValue (Trim raw) 13)) = Some n ->
  stod (substr_from (slash_pos + 1) (ExtractValue (Trim raw) 13)) = Some m ->
  gt n zero = true -> gt m zero = true ->
  current_rules st = Some kb ->
  um_find kb (user_agents (data st)) = Some r ->
  um_find kb (user_agents (data (parse_line stod st raw)))
  = Some (mkRules (crawl_delay r) (div m n) (disallow r) (allow r)).
Proof.
  intros Hd Hf Hn Hm Hgn Hgm Hc Hr. unfold parse_line.
  assert (Hs : empty (Trim raw) || is_comment (Trim raw) = false)
    by not_skipped.
  assert (H1 : StartsWithCaseInsensitive (Trim raw) "user-agent:" = false)
    by first_letter.
  assert (H2 : StartsWithCaseInsensitive (Trim raw) "crawl-delay:" = false)
    by first_letter.
  rewrite Hs, H1, H2, Hd, Hc. unfold on_request_rate.
  rewrite Hf, Hn, Hm, Hgn, Hgm.
  simpl. rewrite um_find_update_eq, Hr. reflexivity.
Qed.







End WithStod.





End ParseFacts.

(** ** Effective delay (GetEffectiveDelay) *)

Module DelayFacts.
Import Double Robots.

Lemma compare_cont_antisym p q c :
  Pos.compare_cont (CompOpp c) q p = CompOpp (Pos.compare_cont c p q).
Proof. symmetry. apply Pos.compare_cont_antisym. Qed.

(** Comparing the other way round gives the opposite answer. *)
Lemma SFcompare_antisym x y :
  SFcompare y x = option_map CompOpp (SFcompare x y).
Proof.
  destruct x as [sx|sx| |sx mx ex], y as [sy|sy| |sy my ey]; simpl;
    try reflexivity;
    try (destruct sx; reflexivity);
    try (destruct sy; reflexivity);
    try (destruct sx, sy; reflexivity).
  destruct sx, sy; try reflexivity; f_equal;
    rewrite (Z.compare_antisym ex ey);
    destruct (ex ?= ey)%Z; simpl; try reflexivity.
  - f_equal. exact (compare_cont_antisym mx my Eq).
  - exact (compare_cont_antisym mx my Eq).
Qed.

Lemma SFcompare_refl x : x <> S754_nan -> SFcompare x x = Some Eq.
Proof.
  destruct x as [s|s| |s m e]; simpl; intros H;
    try reflexivity; try contradiction.
  - destruct s; reflexivity.
  - destruct s; rewrite Z.compare_refl, Pos.compare_cont_refl; reflexivity.
Qed.

Lemma ge_not_nan x y : ge x y = true -> x <> S754_nan.
Proof.
  unfold ge, SFleb. intros H ->. destruct y; discriminate.
Qed.

Lemma ge_refl x : x <> S754_nan -> ge x x = true.
Proof. intros H. unfold ge, SFleb. rewrite SFcompare_refl; auto. Qed.

(** [std::max(a, b)] is one of its arguments and, when neither is NaN, at
    least as large as both. *)
Lemma max_is_upper_bound a b :
  a <> S754_nan -> b <> S754_nan ->
  (max a b = a \/ max a b = b) /\ ge (max a b) a = true /\ ge (max a b) b = true.
Proof.
  intros Ha Hb. unfold max, lt, SFltb.
  destruct (SFcompare a b) as [c|] eqn:E.
  - destruct c.
    + split; [auto|]. split; [apply ge_refl; exact Ha|].
      unfold ge, SFleb. rewrite SFcompare_antisym, E. reflexivity.
    + split; [auto|]. split; [|apply ge_refl; exact Hb].
      unfold ge, SFleb. rewrite E. reflexivity.
    + split; [auto|]. split; [apply ge_refl; exact Ha|].
      unfold ge, SFleb. rewrite SFcompare_antisym, E. reflexivity.
  - exfalso. destruct a, b; simpl in E; try discriminate; contradiction.
Qed.

(** C9: when both crawl_delay and the delay derived from request_rate are
    set (non-negative), GetEffectiveDelay returns the stricter of the two:
    one of them, and at least as large as both; when only one is set, it
    returns that one. *)
Theorem GetEffectiveDelay_stricter (r : RobotsRules) :
  (ge (crawl_delay r) zero = true -> ge (request_rate r) zero = true ->
     (GetEffectiveDelay r = crawl_delay r \/ GetEffectiveDelay r = request_rate r)
     /\ ge (GetEffectiveDelay r) (crawl_delay r) = true
     /\ ge (GetEffectiveDelay r) (request_rate r) = true)
  /\ (ge (crawl_delay r) zero = true -> ge (request_rate r) zero = false ->
        GetEffectiveDelay r = crawl_delay r)
  /\ (ge (crawl_delay r) zero = false -> ge (request_rate r) zero = true ->
        GetEffectiveDelay r = request_rate r).
Proof.
  unfold GetEffectiveDelay. split; [|split].
  - intros Hc Hr. rewrite Hc, Hr. simpl.
    apply max_is_upper_bound; eapply ge_not_nan; eassumption.
  - intros Hc Hr. rewrite Hc, Hr. reflexivity.
  - intros Hc Hr. rewrite Hc, Hr. reflexivity.
Qed.

(** Crawl-delay 2 s and Request-rate 1/5 (5 s per request): the effective
    delay is 5 s; with the Crawl-delay alone it is 2 s. *)
Lemma GetEffectiveDelay_stricter_witness :
  GetEffectiveDelay (mkRules (of_Z 2) (of_Z 5) [] []) = of_Z 5
  /\ GetEffectiveDelay (mkRules (of_Z 2) minus_one [] []) = of_Z 2.
Proof.
  split.
  - destruct (GetEffectiveDelay_stricter (mkRules (of_Z 2) (of_Z 5) [] []))
      as [H _].
    destruct (H eq_refl eq_refl) as [[E|E] _]; [discriminate E | exact E].
  - destruct (GetEffectiveDelay_stricter (mkRules (of_Z 2) minus_one [] []))
      as (_ & H & _).
    exact (H eq_refl eq_refl).
Defined.

End DelayFacts.

(** ** Sitemap parsing *)

Module SitemapFacts.
Import Str Sitemap Samples.


(** C8, at a failing input: Parse trims the content of [<loc>] and returns
    the contents of [<lastmod>], [<changefreq>] and [<priority>] as they
    stand in the XML, with their surrounding blanks. *)
Theorem Parse_trims_loc_only :
  urls (Parse sample_urlset)
  = [mkEntry "http://a/1" " 2024-01-01 " " daily " " 0.5 "]
  /\ is_trimmed "http://a/1"
  /\ ~ is_trimmed " 2024-01-01 "
  /\ ~ is_trimmed " daily "
  /\ ~ is_trimmed " 0.5 ".
Proof.
  split; [reflexivity|]. split; [split; reflexivity|].
  repeat split; intros [H _]; discriminate H.
Qed.

(** The three fields are the raw tag contents for every block. *)
Lemma parse_url_block_raw_fields block e :
  parse_url_block block = Some e ->
  lastmod e = fst (ExtractTagContent block "lastmod" 0)
  /\ changefreq e = fst (ExtractTagContent block "changefreq" 0)
  /\ priority e = fst (ExtractTagContent block "priority" 0).
Proof.
  unfold parse_url_block.
  destruct (empty _); [discriminate|].
  intros [= <-]. auto.
Qed.

(** A [<loc>] of blanks only is kept as it is, untrimmed. *)
Lemma Parse_blank_loc :
  urls (Parse "<urlset><url><loc>  </loc></url></urlset>")
  = [mkEntry "  " "" "" ""].
Proof. reflexivity. Qed.

End SitemapFacts.

(** ** Retry backoff *)

Module BackoffFacts.
Import Backoff.
Local Open Scope Z_scope.

(** The first retry delays the code computes under the default cap, and
    the documented ones. *)
Lemma backoff_values :
  List.map (fun n => FibonacciBackoffSeconds n 600) [1; 2; 3; 4; 5; 6; 7; 8; 9; 10; 11]
  = [3; 6; 9; 15; 24; 39; 63; 102; 165; 267; 432]
  /\ List.map (fun n => spec_backoff n 600) [1; 2; 3; 4; 5; 6; 7; 8; 9; 10; 11]
     = [3; 3; 6; 9; 15; 24; 39; 63; 102; 165; 267].
Proof. split; reflexivity. Qed.

(** C7, at a failing input: for the second consecutive error the code
    returns 6 seconds where the documented sequence has 3; with a cap
    below 3 the first delay exceeds the cap and the delays decrease. *)
Theorem FibonacciBackoffSeconds_second_delay :
  FibonacciBackoffSeconds 2 600 = 6
  /\ spec_backoff 2 600 = 3
  /\ FibonacciBackoffSeconds 1 1 = 3
  /\ FibonacciBackoffSeconds 2 1 = 1.
Proof. repeat split. Qed.


Lemma documented_pair_pos k :
  0 < fst (documented_pair k) <= snd (documented_pair k).
Proof.
  induction k as [|k IH]; simpl; [lia|].
  destruct (documented_pair k) as [a b]; simpl in *. lia.
Qed.

Lemma documented_seq_S k :
  documented_seq (S k) = snd (documented_pair k).
Proof.
  unfold documented_seq. simpl. destruct (documented_pair k); reflexivity.
Qed.

Lemma documented_seq_mono j k :
  (j <= k)%nat -> documented_seq j <= documented_seq k.
Proof.
  induction 1 as [|k _ IH]; [lia|].
  rewrite documented_seq_S. pose proof (documented_pair_pos k).
  unfold documented_seq in *. lia.
Qed.

Lemma wrap32_id z : - 2 ^ 31 <= z < 2 ^ 31 -> wrap32 z = z.
Proof. intros H. unfold wrap32. rewrite Z.mod_small; lia. Qed.

(** The loop, entered with the pair number [k] of the sequence at
    [i = k + 2], computes element [n] (counted from 0), capped. *)
Lemma fib_loop_spec n cap :
  0 <= n <= 2 ^ 31 - 2 -> cap < 2 ^ 30 ->
  forall fuel k,
    Z.of_nat k + 2 <= n + 1 ->
    fuel = Z.to_nat (n - 1 - Z.of_nat k) ->
    snd (documented_pair k) <= cap ->
    fib_loop fuel (Z.of_nat k + 2) n
             (fst (documented_pair k)) (snd (documented_pair k)) cap
    = Z.min (documented_seq (Z.to_nat n)) cap.
Proof.
  intros Hn Hcap. induction fuel as [|fuel IH]; intros k Hk Hfuel Hb.
  - assert (Z.to_nat n = S k) as -> by lia.
    simpl. rewrite documented_seq_S. reflexivity.
  - cbn [fib_loop].
    destruct (Z.leb_spec (Z.of_nat k + 2) n) as [Hle|Hgt]; [|lia].
    pose proof (documented_pair_pos k) as Hpos.
    rewrite wrap32_id by lia.
    destruct (Z.gtb_spec (fst (documented_pair k) + snd (documented_pair k)) cap)
      as [Hover|Hfit].
    + assert (documented_seq (S (S k)) <= documented_seq (Z.to_nat n))
        by (apply documented_seq_mono; lia).
      rewrite documented_seq_S in H. simpl in H.
      destruct (documented_pair k) as [a b]; simpl in *. lia.
    + rewrite wrap32_id by lia.
      specialize (IH (S k)).
      replace (Z.of_nat (S k) + 2) with (Z.of_nat k + 2 + 1) in IH by lia.
      simpl documented_pair in IH.
      destruct (documented_pair k) as [a b]; simpl in *.
      apply IH; lia.
Qed.

(** What the code computes, where no [int] overflows and the cap is at
    least the first delay: element [n + 1] of the documented sequence,
    capped (the documented schedule gives element [n]). *)
Lemma FibonacciBackoffSeconds_value n cap :
  0 <= n <= 2 ^ 31 - 2 -> 3 <= cap < 2 ^ 30 ->
  FibonacciBackoffSeconds n cap = Z.min (documented_seq (Z.to_nat n)) cap.
Proof.
  intros Hn Hcap. unfold FibonacciBackoffSeconds.
  destruct (Z.leb_spec n 1) as [Hle|Hgt].
  - assert (n = 0 \/ n = 1) as [-> | ->] by lia;
      change (documented_seq _) with 3; lia.
  - apply (fib_loop_spec n cap ltac:(lia) ltac:(lia) _ 0%nat); simpl; lia.
Qed.

(** In that range the delay never exceeds the cap and does not decrease
    with the number of consecutive errors. *)
Lemma FibonacciBackoffSeconds_capped_monotone n m cap :
  0 <= n <= m -> m <= 2 ^ 31 - 2 -> 3 <= cap < 2 ^ 30 ->
  FibonacciBackoffSeconds n cap <= FibonacciBackoffSeconds m cap <= cap.
Proof.
  intros Hn Hm Hcap. rewrite !FibonacciBackoffSeconds_value by lia.
  assert (documented_seq (Z.to_nat n) <= documented_seq (Z.to_nat m))
    by (apply documented_seq_mono; lia).
  lia.
Qed.

End BackoffFacts.

(** ** The streaming crawl worker and robots.txt *)

Module CrawlStreamFacts.
Import Str Double Robots CrawlStream Samples.

Section WithCollaborators.
Variable RetryConfig : Type.
Variable RetryConfig_init : RetryConfig.
Variable set_max_retries : Z -> RetryConfig -> RetryConfig.
Variable Fetch : string -> RetryConfig -> string -> HttpResponse.
Variable ExtractDomain ExtractPath : string -> string.
Variable ExtractJsonLdWithRust ExtractOpenGraphWithRust : string -> string.
Variable stod : string -> option double.

(** When the robots check of the worker disallows the URL it has drawn,
    the iteration ends at [continue] and pushes no row, with status -1 or
    otherwise: the result queue is as it was. *)
Lemma worker_iteration_drops_disallowed
  (bind_data : CrawlStreamBindData) (st : WorkerState) (u : string) :
  fst (check_robots RetryConfig RetryConfig_init Fetch ExtractDomain
         ExtractPath stod bind_data (domain_states st) u) = false ->
  results (worker_iteration RetryConfig RetryConfig_init set_max_retries Fetch
             ExtractDomain ExtractPath
             ExtractJsonLdWithRust ExtractOpenGraphWithRust stod
             bind_data st u)
  = results st.
Proof.
  intros H. unfold worker_iteration.
  destruct (check_robots _ _ _ _ _ _ _ _ _) as [allow m]. simpl in H.
  subst allow. reflexivity.
Qed.

(** Every row the worker pushes carries the status the fetch of its URL
    returned; the worker writes no synthetic status. *)
Lemma worker_iteration_rows
  (bind_data : CrawlStreamBindData) (st : WorkerState) (u : string) row :
  In row (results (worker_iteration RetryConfig RetryConfig_init
                     set_max_retries Fetch ExtractDomain ExtractPath
                     ExtractJsonLdWithRust ExtractOpenGraphWithRust stod
                     bind_data st u)) ->
  In row (results st)
  \/ (url row = u
      /\ status_code row
         = resp_status_code (Fetch u (set_max_retries 2 RetryConfig_init)
                                   (user_agent bind_data))).
Proof.
  unfold worker_iteration.
  destruct (check_robots _ _ _ _ _ _ _ _ _) as [allow m].
  destruct allow; simpl; [|auto].
  intros H. apply in_app_or in H. destruct H as [H | [<- | []]]; auto.
Qed.

End WithCollaborators.


(** The dropping iteration, at the seed. *)
Lemma worker_iteration_drops_disallowed_witness :
  results (worker_iteration unit tt (fun _ c => c) Fetch_h ExtractDomain_h
             ExtractPath_h (fun _ => "") (fun _ => "") Stod.stod seed
             (mkWorker ∅ []) "https://h/private/x")
  = [].
Proof.
  apply (worker_iteration_drops_disallowed unit tt (fun _ c => c) Fetch_h
           ExtractDomain_h ExtractPath_h (fun _ => "") (fun _ => "")
           Stod.stod seed (mkWorker ∅ []) "https://h/private/x").
  vm_compute. reflexivity.
Defined.

End CrawlStreamFacts.

(** ** The URL priority queue *)

Module UrlQueueFacts.
Import UrlQueue.
Local Open Scope list_scope.

(** [lia] reads the index arithmetic of the heap, halving included. *)
Ltac Zify.zify_post_hook ::= Z.div_mod_to_equations.



Lemma comp_false a b : comp a b = false <-> (key a <= key b)%Z.
Proof. unfold comp, entry_gt, key. rewrite Z.gtb_ltb, Z.ltb_ge. tauto. Qed.

Lemma comp_true a b : comp a b = true <-> (key b < key a)%Z.
Proof. unfold comp, entry_gt, key. rewrite Z.gtb_ltb, Z.ltb_lt. tauto. Qed.


Lemma is_heap_upto c : is_heap c <-> heap_upto (length c) c.
Proof.
  unfold is_heap, heap_upto. split; intros H i Hi.
  - apply comp_false, H, Hi.
  - apply comp_false, H, Hi.
Qed.


(** Overwriting position [i] trades one occurrence of the old element
    for one of the new. *)
Lemma cnt_insert c i x y :
  i < length c ->
  cnt (<[i := x]> c) y + one_if (c !!! i) y = cnt c y + one_if x y.
Proof.
  revert i. induction c as [|a c IH]; intros i Hi; simpl in Hi; [lia|].
  destruct i as [|i]; simpl.
  - unfold cnt, one_if. simpl.
    destruct (UrlQueueEntry_eq_dec x y), (UrlQueueEntry_eq_dec a y);
      repeat case_decide; try contradiction; lia.
  - specialize (IH i ltac:(lia)). unfold cnt in *. simpl.
    change (lookup_total (S i) (a :: c)) with (c !!! i).
    destruct (UrlQueueEntry_eq_dec a y); lia.
Qed.


Ltac lookups :=
  repeat first
    [ rewrite list_lookup_total_insert_eq by (rewrite ?length_insert; lia)
    | rewrite list_lookup_total_insert_ne by lia ].

(** *** Sifting up ([std::__push_heap]) *)


Lemma up_inv_done len c h v :
  up_inv len c h v -> h < len -> len <= length c ->
  (h = 0 \/ (key (c !!! ((h - 1) / 2)%nat) <= key v)%Z) ->
  heap_upto len (<[h := v]> c).
Proof.
  intros [E B G] Hh Hl Hx i Hi.
  destruct (decide (i = h)) as [->|Hne].
  - lookups. destruct Hx as [->|Hx]; [lia | exact Hx].
  - destruct (decide (((i - 1) / 2)%nat = h)) as [Hp|Hp].
    + rewrite Hp. lookups. apply B; assumption.
    + lookups. apply E; assumption.
Qed.

Lemma up_inv_step len c h v :
  up_inv len c h v -> 0 < h < len -> len <= length c ->
  (key v < key (c !!! ((h - 1) / 2)%nat))%Z ->
  up_inv len (<[h := c !!! ((h - 1) / 2)%nat]> c) ((h - 1) / 2) v.
Proof.
  intros [E B G] Hh Hl Hv. split.
  - intros i Hi Hne Hpne.
    assert (i <> h) by (intros ->; contradiction).
    destruct (decide (((i - 1) / 2)%nat = h)) as [Hp|Hp].
    + rewrite Hp. lookups. apply G; [assumption | assumption | lia].
    + lookups. apply E; assumption.
  - intros i Hi Hp.
    destruct (decide (i = h)) as [->|Hne].
    + lookups. lia.
    + lookups. assert (key (c !!! ((i - 1) / 2)%nat) <= key (c !!! i))%Z
        by (apply E; [assumption | assumption | lia]).
      rewrite Hp in H. lia.
  - intros i Hi Hp Hpos.
    assert (Hpp : (key (c !!! ((((h - 1) / 2) - 1) / 2)%nat)
                   <= key (c !!! ((h - 1) / 2)%nat))%Z)
      by (apply E; lia).
    destruct (decide (i = h)) as [->|Hne].
    + lookups. exact Hpp.
    + lookups. assert (key (c !!! ((i - 1) / 2)%nat) <= key (c !!! i))%Z
        by (apply E; [assumption | assumption | lia]).
      rewrite Hp in H. lia.
Qed.

Lemma push_heap_loop_O c h top v :
  push_heap_loop 0 c h top v = <[h := v]> c.
Proof. reflexivity. Qed.

Lemma push_heap_loop_S fuel c h top v :
  push_heap_loop (S fuel) c h top v
  = if (top <? h) && comp (c !!! ((h - 1) / 2)) v
    then push_heap_loop fuel (<[h := c !!! ((h - 1) / 2)]> c)
                        ((h - 1) / 2) top v
    else <[h := v]> c.
Proof. reflexivity. Qed.

(** With enough fuel the loop ends in heap order. *)
Lemma push_heap_loop_heap len fuel : forall c h v,
  h <= fuel -> h < len -> len <= length c ->
  up_inv len c h v ->
  heap_upto len (push_heap_loop fuel c h 0 v).
Proof.
  induction fuel as [|fuel IH]; intros c h v Hf Hh Hl Hinv.
  - rewrite push_heap_loop_O. apply up_inv_done; auto. left. lia.
  - rewrite push_heap_loop_S.
    destruct (0 <? h) eqn:E0; cbn [andb].
    + apply Nat.ltb_lt in E0.
      destruct (comp (c !!! ((h - 1) / 2)%nat) v) eqn:Ec.
      * apply comp_true in Ec. apply IH.
        -- lia.
        -- lia.
        -- rewrite length_insert. exact Hl.
        -- apply up_inv_step; auto.
      * apply comp_false in Ec. apply up_inv_done; auto.
    + apply Nat.ltb_ge in E0. apply up_inv_done; auto. left. lia.
Qed.

Lemma push_heap_loop_length fuel : forall c h top v,
  length (push_heap_loop fuel c h top v) = length c.
Proof.
  induction fuel as [|fuel IH]; intros c h top v.
  - apply length_insert.
  - rewrite push_heap_loop_S.
    destruct (_ && _); [rewrite IH|]; apply length_insert.
Qed.

(** The loop writes at the hole and above it only. *)
Lemma push_heap_loop_frame fuel : forall c h top v j,
  h < j -> push_heap_loop fuel c h top v !!! j = c !!! j.
Proof.
  induction fuel as [|fuel IH]; intros c h top v j Hj.
  - rewrite push_heap_loop_O. lookups. reflexivity.
  - rewrite push_heap_loop_S. destruct (_ && _).
    + rewrite IH by lia. lookups. reflexivity.
    + lookups. reflexivity.
Qed.

(** The loop trades the element that stood at the hole for [v]. *)
Lemma push_heap_loop_cnt fuel : forall c h top v y,
  h < length c ->
  cnt (push_heap_loop fuel c h top v) y + one_if (c !!! h) y
  = cnt c y + one_if v y.
Proof.
  induction fuel as [|fuel IH]; intros c h top v y Hh.
  - apply cnt_insert. exact Hh.
  - rewrite push_heap_loop_S. destruct ((top <? h) && _) eqn:E.
    + apply andb_true_iff in E. destruct E as [E _]. apply Nat.ltb_lt in E.
      pose proof (IH (<[h := c !!! ((h - 1) / 2)%nat]> c) ((h - 1) / 2)%nat
                     top v y) as H1.
      rewrite length_insert in H1. specialize (H1 ltac:(lia)).
      rewrite list_lookup_total_insert_ne in H1 by lia.
      pose proof (cnt_insert c h (c !!! ((h - 1) / 2)%nat) y Hh) as H2.
      lia.
    + apply cnt_insert. exact Hh.
Qed.


(** *** Sifting down ([std::__adjust_heap]) *)

Lemma adjust_heap_loop_O c h sc len :
  adjust_heap_loop 0 c h sc len = (c, h, sc).
Proof. reflexivity. Qed.

Lemma adjust_heap_loop_S fuel c h sc len :
  adjust_heap_loop (S fuel) c h sc len
  = if sc <? (len - 1) / 2 then
      let s := if comp (c !!! (2 * (sc + 1))) (c !!! (2 * (sc + 1) - 1))
               then 2 * (sc + 1) - 1 else 2 * (sc + 1) in
      adjust_heap_loop fuel (<[h := c !!! s]> c) s s len
    else (c, h, sc).
Proof. reflexivity. Qed.

(** Moving into the hole [h] a child [s] that is not after the other
    children keeps the heap order. *)
Lemma down_step len c h s :
  heap_upto len c -> h < s < len -> len <= length c ->
  ((s - 1) / 2)%nat = h ->
  (forall i, 0 < i < len -> ((i - 1) / 2)%nat = h ->
     (key (c !!! s) <= key (c !!! i))%Z) ->
  heap_upto len (<[h := c !!! s]> c).
Proof.
  intros Hheap Hs Hl Hps Hmin i Hi.
  destruct (decide (i = h)) as [->|Hne].
  - lookups.
    assert (key (c !!! ((h - 1) / 2)%nat) <= key (c !!! h))%Z
      by (apply Hheap; lia).
    assert (key (c !!! ((s - 1) / 2)%nat) <= key (c !!! s))%Z
      by (apply Hheap; lia).
    rewrite Hps in *. lia.
  - destruct (decide (((i - 1) / 2)%nat = h)) as [Hp|Hp].
    + rewrite Hp. lookups. apply Hmin; assumption.
    + lookups. apply Hheap. exact Hi.
Qed.

(** With enough fuel the descent stops at a hole [h'] that has no second
    child; the vector stays in heap order, and the element that stood at
    the first hole has been traded for the one at the last hole. *)
Lemma adjust_heap_loop_spec len fuel : forall c h,
  (len - 1) / 2 <= h + fuel -> h < len -> len <= length c ->
  heap_upto len c ->
  exists c' h',
    adjust_heap_loop fuel c h h len = (c', h', h')
    /\ h <= h' < len /\ (len - 1) / 2 <= h'
    /\ length c' = length c
    /\ heap_upto len c'
    /\ (forall j, len <= j -> c' !!! j = c !!! j)
    /\ (forall y, cnt c' y + one_if (c !!! h) y
                  = cnt c y + one_if (c' !!! h') y).
Proof.
  induction fuel as [|fuel IH]; intros c h Hf Hh Hl Hheap.
  - exists c, h. rewrite adjust_heap_loop_O. repeat split; auto; lia.
  - rewrite adjust_heap_loop_S.
    destruct (h <? (len - 1) / 2) eqn:E.
    + apply Nat.ltb_lt in E. cbv zeta.
      set (s := if comp (c !!! (2 * (h + 1))) (c !!! (2 * (h + 1) - 1))
                then 2 * (h + 1) - 1 else 2 * (h + 1)).
      assert (Hs : (s = 2 * h + 1 \/ s = 2 * h + 2)
                   /\ (key (c !!! s) <= key (c !!! (2 * h + 1)%nat))%Z
                   /\ (key (c !!! s) <= key (c !!! (2 * h + 2)%nat))%Z).
      { subst s. replace (2 * (h + 1) - 1) with (2 * h + 1) by lia.
        replace (2 * (h + 1)) with (2 * h + 2) by lia.
        destruct (comp _ _) eqn:Ec.
        - apply comp_true in Ec. split; [auto | lia].
        - apply comp_false in Ec. split; [auto | lia]. }
      clearbody s. destruct Hs as (Hs & Hl1 & Hl2).
      destruct (IH (<[h := c !!! s]> c) s) as
        (c' & h' & Eq & Hh' & Hstop & Hlen & Hheap' & Hframe & Hcnt).
      * lia.
      * lia.
      * rewrite length_insert. exact Hl.
      * apply down_step; auto; [lia | lia |].
        intros i Hi Hp.
        assert (i = 2 * h + 1 \/ i = 2 * h + 2) as [-> | ->] by lia; assumption.
      * exists c', h'. rewrite Eq. rewrite length_insert in Hlen.
        repeat split; auto; try lia.
        -- intros j Hj. rewrite Hframe by exact Hj. lookups. reflexivity.
        -- intros y. specialize (Hcnt y).
           rewrite list_lookup_total_insert_ne in Hcnt by lia.
           pose proof (cnt_insert c h (c !!! s) y ltac:(lia)). lia.
    + apply Nat.ltb_ge in E. exists c, h. repeat split; auto; lia.
Qed.

(** A hole without children needs no more than sifting up. *)
Lemma up_inv_leaf len c h v :
  heap_upto len c -> len <= 2 * h + 1 -> up_inv len c h v.
Proof.
  intros Hheap Hleaf. split.
  - intros i Hi _ _. apply Hheap, Hi.
  - intros i Hi Hp. lia.
  - intros i Hi Hp. lia.
Qed.

Lemma adjust_heap_spec len c value :
  0 < len -> len <= length c -> heap_upto len c ->
  length (__adjust_heap c 0 len value) = length c
  /\ heap_upto len (__adjust_heap c 0 len value)
  /\ (forall j, len <= j -> __adjust_heap c 0 len value !!! j = c !!! j)
  /\ (forall y, cnt (__adjust_heap c 0 len value) y + one_if (c !!! 0) y
                = cnt c y + one_if value y).
Proof.
  intros Hpos Hl Hheap. unfold __adjust_heap.
  destruct (adjust_heap_loop_spec len len c 0) as
    (c' & h' & Eq & Hh' & Hstop & Hlen & Hheap' & Hframe & Hcnt);
    [lia | lia | exact Hl | exact Hheap |].
  rewrite Eq.
  destruct (Nat.even len && (h' =? (len - 2) / 2)) eqn:E.
  - apply andb_true_iff in E. destruct E as [Ev Eh].
    apply Nat.even_spec in Ev. destruct Ev as [k Hk].
    apply Nat.eqb_eq in Eh.
    replace (2 * (h' + 1) - 1) with (len - 1) by lia.
    assert (Hheap3 : heap_upto len (<[h' := c' !!! (len - 1)]> c')).
    { apply down_step; auto; [lia | lia | lia |].
      intros i Hi Hp. assert (i = len - 1) as -> by lia. lia. }
    unfold __push_heap. repeat split.
    + rewrite push_heap_loop_length, length_insert. exact Hlen.
    + apply push_heap_loop_heap; [lia | lia | rewrite length_insert; lia |].
      apply up_inv_leaf; [exact Hheap3 | lia].
    + intros j Hj. rewrite push_heap_loop_frame by lia. lookups.
      apply Hframe, Hj.
    + intros y.
      pose proof (push_heap_loop_cnt (len - 1)
                    (<[h' := c' !!! (len - 1)]> c') (len - 1) 0 value y) as H1.
      rewrite length_insert in H1. specialize (H1 ltac:(lia)).
      rewrite list_lookup_total_insert_ne in H1 by lia.
      pose proof (cnt_insert c' h' (c' !!! (len - 1)) y ltac:(lia)).
      specialize (Hcnt y). lia.
  - assert (Hleaf : len <= 2 * h' + 1).
    { apply andb_false_iff in E. destruct E as [Ev | Eh].
      - rewrite <- Nat.negb_odd in Ev. apply negb_false_iff in Ev.
        apply Nat.odd_spec in Ev. destruct Ev as [k Hk]. lia.
      - apply Nat.eqb_neq in Eh. lia. }
    unfold __push_heap. repeat split.
    + rewrite push_heap_loop_length. exact Hlen.
    + apply push_heap_loop_heap; [lia | lia | lia |].
      apply up_inv_leaf; assumption.
    + intros j Hj. rewrite push_heap_loop_frame by lia. apply Hframe, Hj.
    + intros y.
      pose proof (push_heap_loop_cnt h' c' h' 0 value y ltac:(lia)).
      specialize (Hcnt y). lia.
Qed.

(** *** [std::push_heap], [std::pop_heap] and the priority queue *)

Lemma cnt_Permutation c c' :
  (forall y, cnt c y = cnt c' y) -> Permutation c c'.
Proof. intros H. apply (Permutation_count_occ UrlQueueEntry_eq_dec), H. Qed.

Lemma pop_heap_spec c :
  1 < length c -> is_heap c ->
  length (pop_heap c) = length c
  /\ heap_upto (length c - 1) (pop_heap c)
  /\ pop_heap c !!! (length c - 1) = c !!! 0
  /\ Permutation (pop_heap c) c.
Proof.
  intros Hn Hheap. apply is_heap_upto in Hheap. unfold pop_heap.
  destruct (1 <? length c) eqn:E; [|apply Nat.ltb_ge in E; lia].
  set (last := length c - 1).
  destruct (adjust_heap_spec last (<[last := c !!! 0]> c) (c !!! last))
    as (Hlen & Hheap' & Hframe & Hcnt).
  - lia.
  - rewrite length_insert. lia.
  - intros i Hi. lookups. apply Hheap. lia.
  - rewrite length_insert in Hlen. repeat split; auto.
    + rewrite Hframe by lia. lookups. reflexivity.
    + apply cnt_Permutation. intros y. specialize (Hcnt y).
      rewrite list_lookup_total_insert_ne in Hcnt by lia.
      pose proof (cnt_insert c last (c !!! 0) y ltac:(lia)). lia.
Qed.

Lemma removelast_take (l : list UrlQueueEntry) :
  removelast l = take (length l - 1) l.
Proof.
  induction l as [|a [|b l] IH]; [reflexivity | reflexivity |].
  change (removelast (a :: b :: l)) with (a :: removelast (b :: l)).
  rewrite IH. simpl. rewrite Nat.sub_0_r. reflexivity.
Qed.

Lemma list_split_last (l : list UrlQueueEntry) :
  l <> [] -> l = take (length l - 1) l ++ [l !!! (length l - 1)].
Proof.
  intros Hne. rewrite <- (take_drop (length l - 1) l) at 1. f_equal.
  assert (Hlt : length l - 1 < length l)
    by (destruct l; [contradiction | simpl; lia]).
  rewrite (drop_S l (l !!! (length l - 1)) (length l - 1)).
  - rewrite drop_ge by lia. reflexivity.
  - apply list_lookup_lookup_total_lt, Hlt.
Qed.

(** [pop] keeps the heap order and removes the top, nothing else. *)
Lemma pq_pop_spec c :
  c <> [] -> is_heap c ->
  is_heap (pq_pop c) /\ Permutation c (pq_top c :: pq_pop c).
Proof.
  intros Hne Hheap. unfold pq_pop, pq_top.
  destruct (decide (length c = 1)) as [H1|H1].
  - destruct c as [|x [|y c]]; simpl in H1; try lia.
    split; [|reflexivity]. intros i Hi. simpl in Hi. lia.
  - assert (Hn : 1 < length c) by (destruct c; [contradiction | simpl in *; lia]).
    destruct (pop_heap_spec c Hn Hheap) as (Hlen & Hheap' & Hlast & Hperm).
    rewrite removelast_take, Hlen. split.
    + apply is_heap_upto. rewrite length_take_le by lia.
      intros i Hi. rewrite !lookup_total_take_lt by lia. apply Hheap', Hi.
    + assert (Hr : pop_heap c <> []) by (intros E; rewrite E in Hlen; simpl in Hlen; lia).
      pose proof (list_split_last _ Hr) as Hsplit.
      rewrite Hlen, Hlast in Hsplit.
      rewrite <- Hperm, Hsplit at 1.
      symmetry. apply Permutation_cons_append.
Qed.

Lemma push_last (c : list UrlQueueEntry) x : (c ++ [x]) !!! length c = x.
Proof. rewrite lookup_total_app_r by lia. rewrite Nat.sub_diag. reflexivity. Qed.

(** [push] keeps the heap order ... *)
Lemma pq_push_heap c x : is_heap c -> is_heap (pq_push c x).
Proof.
  intros Hheap. apply is_heap_upto in Hheap.
  unfold pq_push, push_heap, __push_heap.
  rewrite length_app. simpl length.
  replace (length c + 1 - 1) with (length c) by lia.
  rewrite push_last.
  apply is_heap_upto. rewrite push_heap_loop_length, length_app. simpl length.
  apply push_heap_loop_heap; [lia | lia | rewrite length_app; simpl; lia |].
  split.
  - intros i Hi Hne Hpne. rewrite !lookup_total_app_l by lia.
    apply Hheap. lia.
  - intros i Hi Hp. lia.
  - intros i Hi Hp. lia.
Qed.

(** ... and adds the entry, nothing else. *)
Lemma pq_push_perm c x : Permutation (pq_push c x) (x :: c).
Proof.
  unfold pq_push, push_heap, __push_heap.
  rewrite length_app. simpl length.
  replace (length c + 1 - 1) with (length c) by lia.
  rewrite push_last.
  rewrite (Permutation_cons_append c x). apply cnt_Permutation. intros y.
  pose proof (push_heap_loop_cnt (length c) (c ++ [x]) (length c) 0 x y) as H.
  rewrite length_app in H. simpl length in H. specialize (H ltac:(lia)).
  rewrite push_last in H. lia.
Qed.

(** In heap order the top is not after any element. *)
Lemma heap_top_minimal c :
  is_heap c -> forall i, i < length c ->
  (key (c !!! 0%nat) <= key (c !!! i))%Z.
Proof.
  intros Hheap. apply is_heap_upto in Hheap.
  intros i. induction i as [i IH] using lt_wf_ind. intros Hi.
  destruct (decide (i = 0)) as [->|Hne]; [lia|].
  assert (key (c !!! ((i - 1) / 2)%nat) <= key (c !!! i))%Z
    by (apply Hheap; lia).
  assert (key (c !!! 0%nat) <= key (c !!! ((i - 1) / 2)%nat))%Z
    by (apply IH; lia).
  lia.
Qed.

Lemma pq_top_minimal c x :
  is_heap c -> In x c -> (key (pq_top c) <= key x)%Z.
Proof.
  intros Hheap Hin. apply list_elem_of_In in Hin.
  apply list_elem_of_lookup_total in Hin. destruct Hin as (i & Hi & <-).
  apply heap_top_minimal; assumption.
Qed.


(** *** ThreadSafeUrlQueue *)

Lemma is_heap_nil : is_heap [].
Proof. intros i Hi. simpl in Hi. lia. Qed.

Lemma pq_empty_nil c : pq_empty c = true <-> c = [].
Proof. destruct c; simpl; split; congruence. Qed.

(** What a successful pop does, whichever of the two it is. *)
Lemma pop_shape q e q' :
  TryPop q = (Some e, q') \/ WaitAndPop q = (Some e, q') ->
  queue_ q <> [] /\ e = pq_top (queue_ q)
  /\ q' = mkQueue (pq_pop (queue_ q)) (shutdown_ q).
Proof.
  unfold TryPop, WaitAndPop.
  destruct (pq_empty (queue_ q)) eqn:E; simpl.
  - intros [H|H]; [discriminate|]. destruct (shutdown_ q); discriminate.
  - assert (Hne : queue_ q <> [])
      by (intros H; apply pq_empty_nil in H; congruence).
    rewrite andb_false_r.
    intros [H|H]; injection H as <- <-; auto.
Qed.

Lemma step_heap q o :
  is_heap (queue_ q) -> is_heap (queue_ (step q o).2).
Proof.
  intros Hheap. destruct o as [e| | |]; simpl.
  - apply pq_push_heap, Hheap.
  - destruct (TryPop q) as [[e|] q'] eqn:E.
    + destruct (pop_shape q e q' (or_introl E)) as (Hne & _ & ->).
      simpl. apply pq_pop_spec; assumption.
    + unfold TryPop in E. destruct (pq_empty (queue_ q)); [|discriminate].
      injection E as <-. exact Hheap.
  - destruct (WaitAndPop q) as [[e|] q'] eqn:E.
    + destruct (pop_shape q e q' (or_intror E)) as (Hne & _ & ->).
      simpl. apply pq_pop_spec; assumption.
    + unfold WaitAndPop in E.
      destruct (negb _); [injection E as <-; exact Hheap|].
      destruct (_ && _); [injection E as <-; exact Hheap | discriminate].
  - exact Hheap.
Qed.

Lemma run_cons q o ops :
  run q (o :: ops)
  = ((step q o).1 :: (run (step q o).2 ops).1, (run (step q o).2 ops).2).
Proof.
  cbn [run]. destruct (step q o) as [r q1]. cbn [fst snd].
  destruct (run q1 ops) as [rs q2]. reflexivity.
Qed.

(** Every queue that the calls can produce is in heap order. *)
Lemma run_heap ops : forall q,
  is_heap (queue_ q) -> is_heap (queue_ (run q ops).2).
Proof.
  induction ops as [|o ops IH]; intros q Hheap; [exact Hheap|].
  rewrite run_cons. simpl. apply IH, step_heap, Hheap.
Qed.

(** [Push] adds the entry to the queue, nothing else. *)
Lemma Push_adds q e : Permutation (queue_ (Push q e)) (e :: queue_ q).
Proof. apply pq_push_perm. Qed.

(** C6, counterexample: four entries with the same earliest_fetch are
    pushed in the order A, B, C, D; the first pop returns A and the second
    returns C, although B was pushed before C. *)
Lemma equal_times_not_fifo :
  let A := mkUrl "A" 0 false 7 in
  let B := mkUrl "B" 0 false 7 in
  let C := mkUrl "C" 0 false 7 in
  let D := mkUrl "D" 0 false 7 in
  (run queue_init
     [OpPush A; OpPush B; OpPush C; OpPush D; OpTryPop; OpTryPop]).1
  = [None; None; None; None; Some A; Some C].
Proof. reflexivity. Qed.

(** C6, amended: in every queue that a sequence of calls produces from the
    empty queue, a successful pop (TryPop or WaitAndPop) returns an entry
    of the queue whose earliest_fetch is minimal among the entries in the
    queue, and removes exactly that entry; among entries with equal
    earliest_fetch no order is promised. *)
Theorem pop_returns_earliest (ops : list op) (e : UrlQueueEntry)
  (q' : ThreadSafeUrlQueue) :
  let q := (run queue_init ops).2 in
  TryPop q = (Some e, q') \/ WaitAndPop q = (Some e, q') ->
  In e (queue_ q)
  /\ (forall x, In x (queue_ q) -> (earliest_fetch e <= earliest_fetch x)%Z)
  /\ Permutation (queue_ q) (e :: queue_ q').
Proof.
  intros q Hpop.
  assert (Hheap : is_heap (queue_ q)) by (apply run_heap, is_heap_nil).
  destruct (pop_shape q e q' Hpop) as (Hne & -> & ->).
  destruct (pq_pop_spec (queue_ q) Hne Hheap) as [_ Hperm].
  split; [|split].
  - eapply Permutation_in; [symmetry; exact Hperm | left; reflexivity].
  - intros x Hx. apply (pq_top_minimal _ _ Hheap Hx).
  - exact Hperm.
Qed.

(** After pushing entries due at 5, 3 and 4, the pop returns the one due
    at 3. *)
Lemma pop_returns_earliest_witness :
  let q := (run queue_init
              [OpPush (mkUrl "a" 0 false 5); OpPush (mkUrl "b" 0 false 3);
               OpPush (mkUrl "c" 0 false 4)]).2 in
  In (mkUrl "b" 0 false 3) (queue_ q)
  /\ (forall x, In x (queue_ q) -> (3 <= earliest_fetch x)%Z).
Proof.
  intros q.
  destruct (pop_returns_earliest
              [OpPush (mkUrl "a" 0 false 5); OpPush (mkUrl "b" 0 false 3);
               OpPush (mkUrl "c" 0 false 4)]
              (mkUrl "b" 0 false 3)
              (mkQueue [mkUrl "c" 0 false 4; mkUrl "a" 0 false 5] false)
              (or_introl eq_refl)) as (H1 & H2 & _).
  split; [exact H1 | exact H2].
Defined.





End UrlQueueFacts.

(** ** More on the robots.txt parser *)

Module RobotsMoreFacts.
Import Str Double Robots RobotsSpec ParseFacts.

(** *** Trim, ToLower, StartsWithCaseInsensitive *)

Lemma trim_start_front s :
  match front (trim_start s) with
  | Some c => isspace c = false
  | None => True
  end.
Proof.
  induction s as [|c s IH]; simpl; [exact I|].
  destruct (isspace c) eqn:E; [exact IH | simpl; exact E].
Qed.

Lemma trim_start_fixed s :
  match front s with Some c => isspace c = false | None => True end ->
  trim_start s = s.
Proof. destruct s as [|c s]; simpl; [reflexivity|]. intros ->. reflexivity. Qed.

Lemma trim_end_front s :
  trim_end s = EmptyString \/ front (trim_end s) = front s.
Proof.
  destruct s as [|c s]; simpl; [auto|].
  destruct (trim_end s); [destruct (isspace c)|]; auto.
Qed.

Lemma trim_end_back s :
  match back (trim_end s) with
  | Some c => isspace c = false
  | None => True
  end.
Proof.
  induction s as [|c s IH]; simpl; [exact I|].
  destruct (trim_end s) as [|d t] eqn:E.
  - destruct (isspace c) eqn:Ec; simpl; [exact I | exact Ec].
  - exact IH.
Qed.

Lemma trim_end_idem s : trim_end (trim_end s) = trim_end s.
Proof.
  induction s as [|c s IH]; simpl; [reflexivity|].
  destruct (trim_end s) as [|d t] eqn:E.
  - destruct (isspace c) eqn:Ec; simpl; [reflexivity|]. rewrite Ec. reflexivity.
  - change (trim_end (String c (String d t)))
      with (match trim_end (String d t) with
            | EmptyString => if isspace c then EmptyString else String c EmptyString
            | u => String c u
            end).
    rewrite IH. reflexivity.
Qed.

Lemma Trim_front s :
  match front (Trim s) with
  | Some c => isspace c = false
  | None => True
  end.
Proof.
  unfold Trim.
  destruct (trim_end_front (trim_start s)) as [-> | ->]; [exact I|].
  apply trim_start_front.
Qed.

Lemma Trim_idem s : Trim (Trim s) = Trim s.
Proof.
  unfold Trim at 1. rewrite (trim_start_fixed _ (Trim_front s)).
  apply trim_end_idem.
Qed.

(** X1: Trim returns either the empty string or a string whose first and
    last characters are not whitespace, and trimming twice is trimming
    once. *)
Theorem Trim_trimmed (s : string) :
  Trim (Trim s) = Trim s
  /\ match front (Trim s), back (Trim s) with
     | Some a, Some b => isspace a = false /\ isspace b = false
     | None, None => Trim s = EmptyString
     | _, _ => False
     end.
Proof.
  split; [apply Trim_idem|].
  pose proof (Trim_front s) as Hfront. unfold Trim in *.
  pose proof (trim_end_back (trim_start s)) as Hback.
  destruct (trim_end (trim_start s)) as [|c t]; [reflexivity|].
  simpl front in *.
  destruct (back (String c t)) as [b|] eqn:Eb; [auto|].
  simpl in Eb. destruct t; [discriminate|].
  clear -Eb. exfalso. revert a Eb. induction t as [|d t IH]; intros a Eb.
  - discriminate.
  - simpl in Eb. apply (IH d). exact Eb.
Qed.

Lemma tolower_idem c : tolower (tolower c) = tolower c.
Proof.
  destruct c as [b0 b1 b2 b3 b4 b5 b6 b7].
  destruct b0, b1, b2, b3, b4, b5, b6, b7; reflexivity.
Qed.

Lemma ToLower_idem s : ToLower (ToLower s) = ToLower s.
Proof.
  induction s as [|c s IH]; simpl; [reflexivity|].
  rewrite tolower_idem, IH. reflexivity.
Qed.

(** X2: StartsWithCaseInsensitive compares without regard to letter case:
    it is the plain prefix test on the lowercased strings, so the case of
    neither argument matters. *)
Theorem StartsWithCaseInsensitive_lower (str prefix : string) :
  StartsWithCaseInsensitive str prefix
  = starts_with (ToLower prefix) (ToLower str).
Proof.
  revert str. induction prefix as [|p prefix IH]; intros str.
  - destruct str; reflexivity.
  - destruct str as [|c str]; simpl; [reflexivity|].
    rewrite IH, Ascii.eqb_sym. reflexivity.
Qed.


(** *** What Parse stores *)

Lemma ExtractValue_ok line n :
  empty (ExtractValue line n) = false -> value_ok (ExtractValue line n).
Proof.
  intros He. split.
  - intros E. rewrite E in He. discriminate.
  - unfold ExtractValue. apply Trim_idem.
Qed.

Lemma map_fst_update k f m : map fst (um_update k f m) = map fst m.
Proof.
  induction m as [|[k0 v] m IH]; simpl; [reflexivity|].
  destruct (String.eqb k k0); simpl; [reflexivity | rewrite IH; reflexivity].
Qed.

Lemma Forall_update (P : string * RobotsRules -> Prop) k f m :
  (forall k0 r, P (k0, r) -> P (k0, f r)) ->
  Forall P m -> Forall P (um_update k f m).
Proof.
  intros Hf H. induction H as [|[k0 v] m Hx Hm IH]; simpl; [constructor|].
  destruct (String.eqb k k0); constructor; auto.
Qed.

Lemma um_find_None_notin k m : um_find k m = None -> ~ In k (map fst m).
Proof.
  induction m as [|[k0 v] m IH]; simpl; [tauto|].
  destruct (String.eqb_spec k k0) as [->|Hne]; [discriminate|].
  intros H [E|Hin]; [congruence | exact (IH H Hin)].
Qed.

Lemma rules_ok_init : rules_ok RobotsRules_init.
Proof.
  split; [constructor|]. split; [constructor|].
  split; left; reflexivity.
Qed.

Lemma state_ok_init : state_ok parse_init.
Proof. split; [constructor|]. split; constructor. Qed.

Lemma set_rules_ok f k st :
  (forall r, rules_ok r -> rules_ok (f r)) ->
  state_ok st -> state_ok (set_rules f k st).
Proof.
  intros Hf (Hnd & Hall & Hsm). unfold set_rules, state_ok. simpl.
  rewrite map_fst_update. split; [exact Hnd|]. split; [|exact Hsm].
  apply Forall_update; [|exact Hall].
  intros k0 r [Hk Hr]. simpl in *. auto.
Qed.

(** A quotient of two positive doubles is not negative; it is NaN for
    [inf / inf]. *)
Lemma div_rate_ok n m :
  gt n zero = true -> gt m zero = true -> rate_ok (div m n).
Proof.
  unfold gt, zero, SFltb. intros Hn Hm.
  destruct n as [sn|sn| |sn mn en]; simpl in Hn; try discriminate;
    destruct sn; try discriminate;
    destruct m as [sm|sm| |sm mm em]; simpl in Hm; try discriminate;
    destruct sm; try discriminate;
    unfold div, rate_ok; simpl;
    try (right; right; reflexivity);
    try (right; left; reflexivity).
  destruct (SFdiv_core_binary prec emax (Z.pos mm) em (Z.pos mn) en)
    as [[mz ez] lz].
  unfold binary_round_aux.
  destruct (shr_fexp prec emax mz ez lz) as [mrs' e'].
  destruct (shr_fexp prec emax _ e' loc_Exact) as [mrs'' e''].
  destruct (shr_m mrs'') as [|p|p].
  - right. left. reflexivity.
  - destruct (Z.leb e'' (emax - prec)); right; left; reflexivity.
  - right. right. reflexivity.
Qed.

Section WithStod.
Variable stod : string -> option double.

Lemma on_user_agent_ok line st : state_ok st -> state_ok (on_user_agent line st).
Proof.
  intros (Hnd & Hall & Hsm). unfold on_user_agent.
  destruct (empty (ToLower (ExtractValue line 11))) eqn:He;
    [repeat split; assumption|].
  unfold state_ok. simpl.
  destruct (um_find _ (user_agents (data st))) eqn:Ef;
    [repeat split; assumption|].
  unfold um_emplace. rewrite map_app. simpl.
  split; [|split; [|exact Hsm]].
  - apply NoDup_app. split; [exact Hnd|]. split.
    + intros x Hx Hx'. apply list_elem_of_In in Hx'. simpl in Hx'.
      destruct Hx' as [<-|[]]. apply list_elem_of_In in Hx.
      exact (um_find_None_notin _ _ Ef Hx).
    + apply NoDup_singleton.
  - apply Forall_app. split; [exact Hall|]. constructor; [|constructor].
    simpl. split; [|apply rules_ok_init]. split.
    + intros E. rewrite E in He. discriminate.
    + apply ToLower_idem.
Qed.

Lemma on_crawl_delay_ok line k st :
  state_ok st -> state_ok (on_crawl_delay stod line k st).
Proof.
  intros H. unfold on_crawl_delay.
  destruct (stod _) as [delay|]; [|exact H].
  destruct (ge delay zero) eqn:E; [|exact H].
  apply set_rules_ok; [|exact H].
  intros r (Hd & Ha & _ & Hr). repeat split; auto. right. exact E.
Qed.

Lemma on_request_rate_ok line k st :
  state_ok st -> state_ok (on_request_rate stod line k st).
Proof.
  intros H. unfold on_request_rate.
  destruct (find _ "/" 0) as [slash_pos|]; [|exact H].
  destruct (stod _) as [n|]; [|exact H].
  destruct (stod _) as [m|]; [|exact H].
  destruct (gt n zero) eqn:En; [|exact H].
  destruct (gt m zero) eqn:Em; [|exact H].
  apply set_rules_ok; [|exact H].
  intros r (Hd & Ha & Hc & _). repeat split; auto.
  apply div_rate_ok; assumption.
Qed.

Lemma on_disallow_ok line k st : state_ok st -> state_ok (on_disallow line k st).
Proof.
  intros H. unfold on_disallow.
  destruct (empty (ExtractValue line 9)) eqn:He; [exact H|].
  apply set_rules_ok; [|exact H].
  intros r (Hd & Ha & Hc & Hr). repeat split; auto. simpl.
  apply Forall_app. split; [exact Hd|].
  constructor; [apply ExtractValue_ok, He | constructor].
Qed.

Lemma on_allow_ok line k st : state_ok st -> state_ok (on_allow line k st).
Proof.
  intros H. unfold on_allow.
  destruct (empty (ExtractValue line 6)) eqn:He; [exact H|].
  apply set_rules_ok; [|exact H].
  intros r (Hd & Ha & Hc & Hr). repeat split; auto. simpl.
  apply Forall_app. split; [exact Ha|].
  constructor; [apply ExtractValue_ok, He | constructor].
Qed.

Lemma on_sitemap_ok line st : state_ok st -> state_ok (on_sitemap line st).
Proof.
  intros (Hnd & Hall & Hsm). unfold on_sitemap.
  destruct (empty (ExtractValue line 8)) eqn:He; [repeat split; assumption|].
  unfold state_ok. simpl. repeat split; auto.
  apply Forall_app. split; [exact Hsm|].
  constructor; [apply ExtractValue_ok, He | constructor].
Qed.

Lemma parse_line_ok st raw : state_ok st -> state_ok (parse_line stod st raw).
Proof.
  intros H. unfold parse_line.
  destruct (empty (Trim raw) || is_comment (Trim raw)); [exact H|].
  destruct (StartsWithCaseInsensitive (Trim raw) "user-agent:");
    [apply on_user_agent_ok, H|].
  destruct (current_rules st) as [k|];
    destruct (StartsWithCaseInsensitive (Trim raw) "crawl-delay:");
    try (apply on_crawl_delay_ok, H);
    destruct (StartsWithCaseInsensitive (Trim raw) "request-rate:");
    try (apply on_request_rate_ok, H);
    destruct (StartsWithCaseInsensitive (Trim raw) "disallow:");
    try (apply on_disallow_ok, H);
    destruct (StartsWithCaseInsensitive (Trim raw) "allow:");
    try (apply on_allow_ok, H);
    destruct (StartsWithCaseInsensitive (Trim raw) "sitemap:");
    try (apply on_sitemap_ok, H); exact H.
Qed.

Lemma parse_lines_ok lines : forall st,
  state_ok st -> state_ok (parse_lines stod st lines).
Proof.
  induction lines as [|raw lines IH]; intros st H; [exact H|].
  apply (IH (parse_line stod st raw)), parse_line_ok, H.
Qed.

Lemma Parse_ok content :
  state_ok (mkState (Parse stod content) None).
Proof.
  pose proof (parse_lines_ok (getlines content) parse_init state_ok_init) as H.
  exact H.
Qed.

(** X3: in the map Parse returns, every user-agent occurs once, and every
    key is non-empty and in lower case. *)
Theorem Parse_keys (content : string) :
  NoDup (map fst (user_agents (Parse stod content)))
  /\ Forall key_ok (map fst (user_agents (Parse stod content))).
Proof.
  destruct (Parse_ok content) as (Hnd & Hall & _). simpl in *.
  split; [exact Hnd|]. apply List.Forall_map.
  eapply List.Forall_impl; [|exact Hall]. intros e [Hk _]. exact Hk.
Qed.

(** X4: every Allow path, Disallow path and Sitemap URL that Parse stores
    is non-empty and carries no surrounding whitespace. *)
Theorem Parse_values (content : string) :
  Forall (fun e => Forall value_ok (disallow (snd e))
                   /\ Forall value_ok (allow (snd e)))
         (user_agents (Parse stod content))
  /\ Forall value_ok (sitemaps (Parse stod content)).
Proof.
  destruct (Parse_ok content) as (_ & Hall & Hsm). simpl in *.
  split; [|exact Hsm].
  eapply List.Forall_impl; [|exact Hall]. intros e [_ (Hd & Ha & _)]. auto.
Qed.

(** X5: a crawl delay that Parse stores is the unset marker -1 or a
    non-negative number, never negative and never NaN; a stored request
    rate is -1, non-negative, or NaN. *)
Theorem Parse_delays (content : string) :
  Forall (fun e => delay_ok (crawl_delay (snd e))
                   /\ rate_ok (request_rate (snd e)))
         (user_agents (Parse stod content)).
Proof.
  destruct (Parse_ok content) as (_ & Hall & _). simpl in *.
  eapply List.Forall_impl; [|exact Hall]. intros e [_ (_ & _ & Hc & Hr)]. auto.
Qed.


(** *** Sitemap lines *)

Lemma parse_line_sitemaps st raw :
  sitemaps (data (parse_line stod st raw))
  = (sitemaps (data st)
     ++ match sitemap_value raw with Some u => [u] | None => [] end)%list.
Proof.
  unfold parse_line, sitemap_value. cbv zeta.
  destruct (empty (Trim raw) || is_comment (Trim raw));
    [rewrite app_nil_r; reflexivity|].
  destruct (StartsWithCaseInsensitive (Trim raw) "sitemap:") eqn:Hs.
  - assert (H1 : StartsWithCaseInsensitive (Trim raw) "user-agent:" = false)
      by first_letter.
    assert (H2 : StartsWithCaseInsensitive (Trim raw) "crawl-delay:" = false)
      by first_letter.
    assert (H3 : StartsWithCaseInsensitive (Trim raw) "request-rate:" = false)
      by first_letter.
    assert (H4 : StartsWithCaseInsensitive (Trim raw) "disallow:" = false)
      by first_letter.
    assert (H5 : StartsWithCaseInsensitive (Trim raw) "allow:" = false)
      by first_letter.
    rewrite H1, H2, H3, H4, H5. unfold on_sitemap.
    destruct (empty (ExtractValue (Trim raw) 8)); simpl;
      [rewrite app_nil_r|]; reflexivity.
  - rewrite app_nil_r. destruct st as [[uas sms] cur]; simpl.
    unfold on_user_agent, on_crawl_delay, on_request_rate, on_disallow,
      on_allow, set_rules.
    repeat match goal with
           | |- context [match ?x with _ => _ end] => destruct x; simpl
           end; reflexivity.
Qed.

Lemma keep_some_app {A B} (f : A -> option B) l1 l2 :
  keep_some f (l1 ++ l2) = (keep_some f l1 ++ keep_some f l2)%list.
Proof.
  induction l1 as [|x l1 IH]; simpl; [reflexivity|].
  destruct (f x); simpl; rewrite IH; reflexivity.
Qed.

Lemma parse_lines_sitemaps lines : forall st,
  sitemaps (data (parse_lines stod st lines))
  = (sitemaps (data st) ++ keep_some sitemap_value lines)%list.
Proof.
  induction lines as [|raw lines IH]; intros st.
  - simpl. rewrite app_nil_r. reflexivity.
  - change (parse_lines stod st (raw :: lines))
      with (parse_lines stod (parse_line stod st raw) lines).
    rewrite IH, parse_line_sitemaps, <- app_assoc. f_equal.
    simpl. destruct (sitemap_value raw); reflexivity.
Qed.

(** X6: Sitemap lines are global. ParseSitemapUrls returns the trimmed
    values of the Sitemap lines of the file, in file order, whatever
    user-agent blocks and other directives surround them and whatever the
    numbers in the file parse to. *)
Theorem ParseSitemapUrls_lines (content : string) :
  ParseSitemapUrls stod content
  = keep_some sitemap_value (getlines content).
Proof.
  unfold ParseSitemapUrls, Parse. rewrite parse_lines_sitemaps. reflexivity.
Qed.

(** *** A robots.txt without user-agent blocks *)

Lemma parse_line_no_current st raw :
  is_user_agent_line raw = false -> current_rules st = None ->
  user_agents (data (parse_line stod st raw)) = user_agents (data st).
Proof.
  unfold is_user_agent_line. intros Hua Hc. unfold parse_line.
  rewrite Hua, Hc. unfold on_sitemap.
  repeat match goal with
         | |- context [match ?x with _ => _ end] => destruct x; simpl
         end; reflexivity.
Qed.

Lemma parse_lines_no_current lines : forall st,
  Forall (fun raw => is_user_agent_line raw = false) lines ->
  current_rules st = None ->
  user_agents (data (parse_lines stod st lines)) = user_agents (data st).
Proof.
  induction lines as [|raw lines IH]; intros st H Hc; [reflexivity|].
  inversion H as [|? ? Hraw Hrest]; subst.
  change (parse_lines stod st (raw :: lines))
    with (parse_lines stod (parse_line stod st raw) lines).
  rewrite IH; [apply parse_line_no_current; assumption | exact Hrest |].
  rewrite parse_line_keeps_current; assumption.
Qed.

(** X7: a robots.txt without any User-agent line (the empty file
    included) yields no rules at all, so every path is allowed for every
    user-agent. *)
Theorem no_user_agent_allows_all (content : string) :
  Forall (fun raw => is_user_agent_line raw = false) (getlines content) ->
  user_agents (Parse stod content) = []
  /\ forall user_agent path,
       IsAllowed (GetRulesForUserAgent (Parse stod content) user_agent) path
       = true.
Proof.
  intros H.
  assert (E : user_agents (Parse stod content) = [])
    by (unfold Parse; rewrite parse_lines_no_current; auto).
  split; [exact E|]. intros user_agent path.
  unfold GetRulesForUserAgent. rewrite E. reflexivity.
Qed.

End WithStod.

(** A file with a Sitemap line, a comment and a stray Disallow. *)
Lemma no_user_agent_allows_all_witness :
  IsAllowed (GetRulesForUserAgent
               (Parse Stod.stod
                  ("# none" ++ String newline
                   ("Disallow: /" ++ String newline "Sitemap: http://s")))
               "MyBot") "/private"
  = true.
Proof.
  apply (no_user_agent_allows_all Stod.stod). repeat constructor.
Defined.

(** *** Delays and path decisions *)

(** X8: HasCrawlDelay says exactly whether GetEffectiveDelay returns a
    delay: it is true when the effective delay is non-negative, and when
    it is false the effective delay is the unset marker -1. *)
Theorem HasCrawlDelay_effective (r : RobotsRules) :
  HasCrawlDelay r = ge (GetEffectiveDelay r) zero
  /\ (HasCrawlDelay r = false -> GetEffectiveDelay r = minus_one).
Proof.
  unfold HasCrawlDelay, GetEffectiveDelay.
  destruct (ge (crawl_delay r) zero) eqn:Ec;
    destruct (ge (request_rate r) zero) eqn:Er; simpl.
  - split; [|discriminate].
    unfold max. destruct (lt _ _); [rewrite Er | rewrite Ec]; reflexivity.
  - rewrite Ec. split; [reflexivity | discriminate].
  - rewrite Er. split; [reflexivity | discriminate].
  - split; reflexivity.
Qed.

Lemma HasCrawlDelay_effective_witness :
  GetEffectiveDelay RobotsRules_init = minus_one.
Proof. apply (HasCrawlDelay_effective RobotsRules_init). reflexivity. Defined.

Lemma existsb_incl {A} (f : A -> bool) l l' :
  incl l l' -> existsb f l = true -> existsb f l' = true.
Proof.
  intros Hincl H. apply existsb_exists in H. destruct H as (x & Hin & Hx).
  apply existsb_exists. exists x. split; [apply Hincl, Hin | exact Hx].
Qed.

(** X9: the decision is monotone in the rules: with more Allow rules and
    fewer Disallow rules, a path that was allowed stays allowed. In
    particular the order and the repetition of rules within the two lists
    do not matter. *)
Theorem IsAllowed_monotone (r r' : RobotsRules) (path : string) :
  incl (allow r) (allow r') -> incl (disallow r') (disallow r) ->
  IsAllowed r path = true -> IsAllowed r' path = true.
Proof.
  intros Ha Hd. unfold IsAllowed.
  destruct (existsb _ (allow r)) eqn:Ea.
  - rewrite (existsb_incl _ _ _ Ha Ea). reflexivity.
  - destruct (existsb _ (disallow r)) eqn:Ed; [discriminate|].
    intros _. destruct (existsb _ (allow r')); [reflexivity|].
    destruct (existsb _ (disallow r')) eqn:Ed'; [|reflexivity].
    rewrite (existsb_incl _ _ _ Hd Ed') in Ed. discriminate.
Qed.

Lemma IsAllowed_monotone_witness :
  IsAllowed (mkRules minus_one minus_one ["/b"; "/a"] ["/a/x"; "/a/x"])
            "/a/x/1" = true.
Proof.
  apply (IsAllowed_monotone
           (mkRules minus_one minus_one ["/a"; "/b"] ["/a/x"])).
  - intros x [<-|[]]. left. reflexivity.
  - intros x [<-|[<-|[]]]; simpl; auto.
  - reflexivity.
Defined.

End RobotsMoreFacts.


(** ** More on the sitemap parser *)

Module SitemapMoreFacts.
Import Str Sitemap.

(** *** Strings: lengths, prefixes and [find] *)

Lemma length_append a b :
  String.length (a ++ b) = String.length a + String.length b.
Proof. induction a as [|c a IH]; simpl; [reflexivity | f_equal; exact IH]. Qed.

Lemma append_cons c a b : (String c a ++ b)%string = String c (a ++ b).
Proof. reflexivity. Qed.

Lemma append_assoc (a b c : string) : ((a ++ b) ++ c = a ++ (b ++ c))%string.
Proof.
  induction a as [|x a IH]; [reflexivity|].
  rewrite !append_cons, IH. reflexivity.
Qed.

Lemma substr_from_app a b : substr_from (String.length a) (a ++ b) = b.
Proof. induction a as [|c a IH]; simpl; [destruct b; reflexivity | exact IH]. Qed.

Lemma substr_from_0 s : substr_from 0 s = s.
Proof. destruct s; reflexivity. Qed.

Lemma take_app a b : take (String.length a) (a ++ b) = a.
Proof. induction a as [|c a IH]; simpl; [destruct b; reflexivity | f_equal; exact IH]. Qed.

Lemma starts_with_app a b : starts_with a (a ++ b) = true.
Proof.
  induction a as [|c a IH]; simpl; [reflexivity|].
  rewrite Ascii.eqb_refl. exact IH.
Qed.

Lemma starts_with_split pat s :
  starts_with pat s = true -> exists rest, s = (pat ++ rest)%string.
Proof.
  revert s. induction pat as [|p pat IH]; intros s; simpl.
  - intros _. exists s. reflexivity.
  - destruct s as [|c s]; [discriminate|]. intros H.
    apply andb_true_iff in H. destruct H as [Hc H].
    apply Ascii.eqb_eq in Hc. subst c.
    destruct (IH s H) as [rest ->]. exists rest. reflexivity.
Qed.

Lemma substr_from_length n s :
  String.length (substr_from n s) = String.length s - n.
Proof.
  revert s. induction n as [|n IH]; intros s; simpl.
  - destruct s; simpl; lia.
  - destruct s as [|c s]; simpl; [reflexivity | apply IH].
Qed.

Lemma substr_from_add n m s :
  substr_from n (substr_from m s) = substr_from (m + n) s.
Proof.
  revert s. induction m as [|m IH]; intros s.
  - rewrite substr_from_0. reflexivity.
  - destruct s as [|c s]; simpl; [destruct n; reflexivity | apply IH].
Qed.

(** Where [find_scan] answers, the pattern stands. *)
Lemma find_scan_spec pat s i j :
  find_scan pat s i = Some j ->
  exists d, j = i + d /\ d <= String.length s
            /\ starts_with pat (substr_from d s) = true.
Proof.
  revert i. induction s as [|c s IH]; intros i; simpl.
  - destruct (starts_with pat "") eqn:E; [|discriminate].
    intros [= <-]. exists 0. simpl. split; [lia | split; [lia | exact E]].
  - destruct (starts_with pat (String c s)) eqn:E.
    + intros [= <-]. exists 0. split; [lia | split; [lia | exact E]].
    + intros H. destruct (IH _ H) as (d & -> & Hd & Hs).
      exists (S d). simpl. split; [lia | split; [lia | exact Hs]].
Qed.

Lemma find_spec s pat pos j :
  find s pat pos = Some j ->
  pos <= j /\ j <= String.length s
  /\ starts_with pat (substr_from j s) = true.
Proof.
  unfold find. destruct (pos <=? String.length s) eqn:E; [|discriminate].
  apply Nat.leb_le in E. intros H.
  destruct (find_scan_spec _ _ _ _ H) as (d & -> & Hd & Hs).
  rewrite substr_from_length in Hd. rewrite substr_from_add in Hs.
  split; [lia | split; [lia | exact Hs]].
Qed.

Lemma take_add d n t :
  d <= String.length t ->
  take (d + n) t = (take d t ++ take n (substr_from d t))%string.
Proof.
  revert t. induction d as [|d IH]; intros t Hd.
  - rewrite substr_from_0. destruct n, t; reflexivity.
  - destruct t as [|c t]; simpl in *; [lia|].
    rewrite IH by lia. reflexivity.
Qed.

Lemma starts_with_take pat n t :
  starts_with pat t = true -> String.length pat <= n ->
  starts_with pat (take n t) = true.
Proof.
  revert n t. induction pat as [|p pat IH]; intros n t; simpl.
  - reflexivity.
  - destruct t as [|c t]; [discriminate|]. intros H Hn.
    destruct n as [|n]; [lia|]. simpl.
    apply andb_true_iff in H. destruct H as [Hc H]. rewrite Hc. simpl.
    apply IH; [exact H | lia].
Qed.

(** *** FindAllBlocks *)

Lemma FindAllBlocks_loop_blocks tag xml fuel : forall pos blocks,
  Forall (block_of tag) blocks ->
  Forall (block_of tag)
    (FindAllBlocks_loop fuel xml ("<" ++ tag) ("</" ++ tag ++ ">") pos blocks).
Proof.
  induction fuel as [|fuel IH]; intros pos blocks Hb; [exact Hb|].
  cbn [FindAllBlocks_loop].
  destruct (pos <? String.length xml); [|exact Hb].
  destruct (find xml ("<" ++ tag) pos) as [block_start|] eqn:Eo; [|exact Hb].
  destruct (find xml ("</" ++ tag ++ ">") block_start) as [block_end0|] eqn:Ec;
    [|exact Hb].
  apply IH. apply Forall_app. split; [exact Hb|]. constructor; [|constructor].
  destruct (find_spec _ _ _ _ Eo) as (_ & Hs & Ho).
  destruct (find_spec _ _ _ _ Ec) as (Hge & He & Hc).
  set (close_tag := ("</" ++ tag ++ ">")%string) in *.
  assert (Hlen : String.length close_tag = String.length tag + 3).
  { subst close_tag. rewrite !length_append. simpl. lia. }
  unfold substr, block_of.
  replace (block_end0 + String.length close_tag - block_start)
    with ((block_end0 - block_start) + String.length close_tag) by lia.
  split.
  - apply starts_with_take; [exact Ho|]. rewrite length_append.
    change (String.length "<") with 1. lia.
  - exists (take (block_end0 - block_start) (substr_from block_start xml)).
    rewrite take_add by (rewrite substr_from_length; lia).
    f_equal. rewrite substr_from_add.
    replace (block_start + (block_end0 - block_start)) with block_end0 by lia.
    destruct (starts_with_split _ _ Hc) as [rest ->]. apply take_app.
Qed.

(** X10: every block FindAllBlocks returns starts with the opening tag
    [<tag] and ends with the closing tag [</tag>]; an input without a
    complete block gives the empty list. *)
Theorem FindAllBlocks_blocks (xml tag : string) :
  Forall (block_of tag) (FindAllBlocks xml tag).
Proof. apply FindAllBlocks_loop_blocks. constructor. Qed.


(** *** Trimming with [find_first_not_of] and [find_last_not_of] *)

Lemma find_last_not_of_scan_ge set s i b :
  find_last_not_of_scan set s i = Some b -> i <= b.
Proof.
  revert i. induction s as [|c s IH]; intros i; simpl; [discriminate|].
  destruct (find_last_not_of_scan set s (S i)) as [j|] eqn:E.
  - intros [= <-]. apply IH in E. lia.
  - destruct (set c); [discriminate|]. intros [= <-]. lia.
Qed.

(** Cutting the string right after the position [find_last_not_of] gives
    leaves a string that ends with the character found there. *)
Lemma find_last_not_of_back set s i b :
  find_last_not_of_scan set s i = Some b ->
  exists c, back (take (b - i + 1) s) = Some c /\ set c = false.
Proof.
  revert i. induction s as [|d s IH]; intros i; simpl; [discriminate|].
  destruct (find_last_not_of_scan set s (S i)) as [j|] eqn:E.
  - intros [= <-]. pose proof (find_last_not_of_scan_ge _ _ _ _ E) as Hge.
    destruct (IH _ E) as (c & Hc & Hset). exists c. split; [|exact Hset].
    replace (j - i + 1) with (S (j - S i + 1)) by lia.
    cbn [take]. destruct (take (j - S i + 1) s); [discriminate | exact Hc].
  - destruct (set d) eqn:Ed; [discriminate|]. intros [= <-].
    exists d. rewrite Nat.sub_diag. simpl. destruct s; auto.
Qed.

(** What [url.substr(start, end - start + 1)] is, when [start] comes from
    [find_first_not_of(set1)], [end] from [find_last_not_of(set2)] and
    [set1] is part of [set2]. *)
Lemma trim_by_sets set1 set2 s i a b :
  (forall c, set1 c = true -> set2 c = true) ->
  find_first_not_of_scan set1 s i = Some a ->
  find_last_not_of_scan set2 s i = Some b ->
  i <= a /\ trimmed_by set1 set2 (substr (a - i) (b - a + 1) s).
Proof.
  intros Hsub. revert i. induction s as [|c s IH]; intros i; simpl;
    [discriminate|].
  destruct (set1 c) eqn:E1.
  - intros Hf. rewrite (Hsub c E1).
    destruct (find_last_not_of_scan set2 s (S i)) as [j|] eqn:El; [|discriminate].
    intros [= <-]. destruct (IH _ Hf El) as [Hle Ht]. split; [lia|].
    unfold substr in *. replace (a - i) with (S (a - S i)) by lia. exact Ht.
  - intros [= ->]. rewrite Nat.sub_diag. intros Hl. split; [lia|].
    unfold substr. rewrite substr_from_0.
    destruct (find_last_not_of_scan set2 s (S a)) as [j|] eqn:El.
    + injection Hl as <-.
      pose proof (find_last_not_of_scan_ge _ _ _ _ El) as Hge.
      destruct (find_last_not_of_back _ _ _ _ El) as (d & Hd & Hset).
      replace (j - a + 1) with (S (j - S a + 1)) by lia. cbn [take].
      exists c, d. split; [reflexivity|]. split; [|auto].
      simpl. destruct (take (j - S a + 1) s); [discriminate | exact Hd].
    + destruct (set2 c) eqn:E2; [discriminate|]. injection Hl as <-.
      rewrite Nat.sub_diag. simpl. exists c, c. auto.
Qed.

Lemma trim_loc_trimmed loc t : trim_loc loc = Some t -> trimmed_by ws ws t.
Proof.
  unfold trim_loc, find_first_not_of, find_last_not_of.
  destruct (find_first_not_of_scan ws loc 0) as [a|] eqn:Ef; [|discriminate].
  destruct (find_last_not_of_scan ws loc 0) as [b|] eqn:El; [|discriminate].
  intros [= <-].
  destruct (trim_by_sets ws ws loc 0 a b (fun c H => H) Ef El) as [_ H].
  rewrite Nat.sub_0_r in H. exact H.
Qed.

Lemma collect_Forall {A B} (f : A -> option B) (P : B -> Prop) l :
  (forall x y, f x = Some y -> P y) -> Forall P (collect f l).
Proof.
  intros H. induction l as [|x l IH]; simpl; [constructor|].
  destruct (f x) eqn:E; [constructor; eauto | exact IH].
Qed.

(** X11: SitemapParser::Parse returns nested sitemaps or URL entries, not
    both. For a sitemap index it returns no URL entries, and every
    sitemap URL is non-empty without surrounding whitespace. For a URL set
    it returns no nested sitemaps, and every entry has a non-empty [loc]
    that is trimmed unless it consists of whitespace only. *)
Theorem Parse_shape (xml_content : string) :
  (is_index (Parse xml_content) = true ->
     urls (Parse xml_content) = []
     /\ Forall (trimmed_by ws ws) (sitemap_urls (Parse xml_content)))
  /\ (is_index (Parse xml_content) = false ->
      sitemap_urls (Parse xml_content) = []
      /\ Forall (fun e => loc e <> EmptyString
                          /\ (trimmed_by ws ws (loc e)
                              \/ find_first_not_of ws (loc e) = None))
                (urls (Parse xml_content))).
Proof.
  unfold Parse.
  destruct (find xml_content "<sitemapindex" 0); simpl; split;
    try discriminate; intros _; (split; [reflexivity|]).
  - apply collect_Forall. intros block t. unfold parse_sitemap_block.
    destruct (empty _); [discriminate|]. apply trim_loc_trimmed.
  - apply collect_Forall. intros block e. unfold parse_url_block.
    set (raw := fst (ExtractTagContent block "loc" 0)).
    destruct (empty raw) eqn:Eraw.
    + rewrite Eraw. discriminate.
    + destruct (trim_loc raw) as [t|] eqn:Et.
      * destruct (empty t) eqn:Ee; [discriminate|]. intros [= <-]. simpl.
        split; [intros ->; discriminate|].
        left. apply trim_loc_trimmed in Et. exact Et.
      * rewrite Eraw. intros [= <-]. simpl.
        split; [intros E; rewrite E in Eraw; discriminate|].
        right. unfold trim_loc in Et.
        destruct (find_first_not_of ws raw) as [a|] eqn:Ef; [|reflexivity].
        destruct (find_last_not_of ws raw) as [b|] eqn:El; [discriminate|].
        exfalso. clear -Ef El. unfold find_first_not_of, find_last_not_of in *.
        revert a Ef El. generalize 0.
        induction raw as [|c raw IH]; intros i a; simpl; [discriminate|].
        destruct (find_last_not_of_scan ws raw (S i)) eqn:E; [discriminate|].
        destruct (ws c); [|discriminate]. intros Hf _. exact (IH _ _ Hf E).
Qed.

Lemma Parse_shape_witness :
  Forall (trimmed_by ws ws)
    (sitemap_urls
       (Parse "<sitemapindex><sitemap><loc> http://a/s.xml </loc></sitemap></sitemapindex>")).
Proof.
  apply (Parse_shape
    "<sitemapindex><sitemap><loc> http://a/s.xml </loc></sitemap></sitemapindex>").
  reflexivity.
Defined.

(** X12: every URL ExtractSitemapsFromRobotsTxt returns is non-empty,
    does not begin with a space or tab and does not end with a space, tab,
    carriage return or newline. *)
Theorem ExtractSitemapsFromRobotsTxt_trimmed (robots_content : string) :
  Forall (trimmed_by blank ws) (ExtractSitemapsFromRobotsTxt robots_content).
Proof.
  apply collect_Forall. intros raw u. unfold sitemap_of_line.
  destruct (strip_cr raw) as [|c line]; [discriminate|].
  destruct (Ascii.eqb c "#"); [discriminate|].
  destruct (find_is_zero _); [|discriminate].
  set (url := substr_from 8 (String c line)).
  unfold find_first_not_of, find_last_not_of.
  destruct (find_first_not_of_scan blank url 0) as [a|] eqn:Ef; [|discriminate].
  destruct (find_last_not_of_scan ws url 0) as [b|] eqn:El; [|discriminate].
  intros [= <-].
  assert (Hsub : forall x, blank x = true -> ws x = true).
  { intros x. unfold blank, ws. intros H. apply orb_true_iff in H.
    destruct H as [H|H]; rewrite H; repeat rewrite orb_true_r; reflexivity. }
  destruct (trim_by_sets blank ws url 0 a b Hsub Ef El) as [_ H].
  rewrite Nat.sub_0_r in H. exact H.
Qed.


(** *** Extracting what was wrapped *)

Lemma find_scan_hit pat s i :
  starts_with pat s = true -> find_scan pat s i = Some i.
Proof. intros H. destruct s; simpl; rewrite H; reflexivity. Qed.

(** A search for a tag runs over text without [<]. *)
Lemma find_scan_skip p v r i :
  no_lt v = true ->
  find_scan (String "<" p) (v ++ r) i
  = find_scan (String "<" p) r (i + String.length v).
Proof.
  revert i. induction v as [|c v IH]; intros i Hv.
  - simpl. rewrite Nat.add_0_r. reflexivity.
  - simpl in Hv. apply andb_true_iff in Hv. destruct Hv as [Hc Hv].
    apply negb_true_iff in Hc.
    rewrite append_cons. cbn [find_scan starts_with].
    rewrite Ascii.eqb_sym, Hc. cbn [andb].
    rewrite IH by exact Hv. simpl. f_equal. lia.
Qed.

(** X13: ExtractTagContent returns what stands between the tags: for a
    document [pre <tag> v </tag> rest] in which neither the text before
    the opening tag nor the content [v] holds a [<], the result is [v],
    and [end_pos] points behind the closing tag. *)
Theorem ExtractTagContent_wrapped (pre tag v rest : string) :
  no_lt pre = true -> no_lt v = true ->
  ExtractTagContent
    (pre ++ ("<" ++ tag ++ ">") ++ v ++ ("</" ++ tag ++ ">") ++ rest) tag 0
  = (v, Some (String.length pre + (String.length tag + 2)
              + String.length v + (String.length tag + 3))).
Proof.
  intros Hpre Hv. unfold ExtractTagContent.
  set (open_tag := ("<" ++ tag ++ ">")%string).
  set (close_tag := ("</" ++ tag ++ ">")%string).
  set (after := (v ++ close_tag ++ rest)%string).
  assert (Ho : String.length open_tag = String.length tag + 2)
    by (subst open_tag; rewrite !length_append; simpl; lia).
  assert (Hc : String.length close_tag = String.length tag + 3)
    by (subst close_tag; rewrite !length_append; simpl; lia).
  assert (E1 : find (pre ++ open_tag ++ after) open_tag 0
               = Some (String.length pre)).
  { unfold find. simpl Nat.leb. cbv iota. rewrite substr_from_0.
    change open_tag with (String "<" (tag ++ ">")) at 1.
    rewrite find_scan_skip by exact Hpre. rewrite Nat.add_0_l.
    apply find_scan_hit, starts_with_app. }
  rewrite E1.
  assert (E2 : find (pre ++ open_tag ++ after) close_tag
                    (String.length pre + String.length open_tag)
               = Some (String.length pre + String.length open_tag
                       + String.length v)).
  { unfold find.
    assert (Hle : (String.length pre + String.length open_tag
                   <=? String.length (pre ++ open_tag ++ after)) = true)
      by (apply Nat.leb_le; rewrite !length_append; lia).
    rewrite Hle, <- substr_from_add, substr_from_app, substr_from_app.
    subst after. change close_tag with (String "<" ("/" ++ tag ++ ">")) at 1.
    rewrite find_scan_skip by exact Hv.
    apply find_scan_hit, starts_with_app. }
  rewrite E2. f_equal.
  - unfold substr.
    rewrite <- substr_from_add, substr_from_app, substr_from_app.
    replace (String.length pre + String.length open_tag + String.length v
             - (String.length pre + String.length open_tag))
      with (String.length v) by lia.
    subst after. apply take_app.
  - f_equal. lia.
Qed.

Lemma ExtractTagContent_wrapped_witness :
  ExtractTagContent "  <loc>http://a/1</loc><lastmod>2024</lastmod>" "loc" 0
  = ("http://a/1", Some 23).
Proof.
  exact (ExtractTagContent_wrapped "  " "loc" "http://a/1"
           "<lastmod>2024</lastmod>" eq_refl eq_refl).
Defined.

End SitemapMoreFacts.

Module UrlQueueMoreFacts.
Import UrlQueue UrlQueueFacts.
Local Open Scope list_scope.

Lemma popped_entries_cons r rs :
  popped_entries (r :: rs) = popped_entries [r] ++ popped_entries rs.
Proof. destruct r; reflexivity. Qed.

Lemma pushed_entries_cons o ops :
  pushed_entries (o :: ops) = pushed_entries [o] ++ pushed_entries ops.
Proof. destruct o; reflexivity. Qed.

(** What a step returns and leaves is what was there and what it pushed. *)
Lemma step_conserves q o :
  is_heap (queue_ q) ->
  Permutation (pushed_entries [o] ++ queue_ q)
              (popped_entries [(step q o).1] ++ queue_ (step q o).2).
Proof.
  intros Hh. destruct o as [e| | |]; simpl.
  - symmetry. apply pq_push_perm.
  - unfold TryPop. destruct (pq_empty (queue_ q)) eqn:E; simpl.
    + reflexivity.
    + apply pq_pop_spec; [|exact Hh]. intros Hn.
      apply pq_empty_nil in Hn. congruence.
  - unfold WaitAndPop.
    destruct (pq_empty (queue_ q)) eqn:E, (shutdown_ q); simpl;
      try reflexivity;
      (apply pq_pop_spec; [|exact Hh]; intros Hn;
       apply pq_empty_nil in Hn; congruence).
  - reflexivity.
Qed.

Lemma run_conserves_from ops : forall q,
  is_heap (queue_ q) ->
  Permutation (pushed_entries ops ++ queue_ q)
              (popped_entries (run q ops).1 ++ queue_ (run q ops).2).
Proof.
  induction ops as [|o ops IH]; intros q Hh.
  - reflexivity.
  - rewrite run_cons. cbn [fst snd].
    rewrite pushed_entries_cons, popped_entries_cons.
    pose proof (step_conserves q o Hh) as Hs.
    pose proof (IH (step q o).2 (step_heap q o Hh)) as Hr.
    rewrite <- !app_assoc.
    rewrite (Permutation_app_swap_app (pushed_entries [o])), Hs.
    rewrite (Permutation_app_swap_app (pushed_entries ops)), Hr.
    reflexivity.
Qed.

(** X14: the queue neither loses nor duplicates an entry: after every
    sequence of calls on a new queue, the entries pushed are, as a
    multiset, the entries the pops returned together with the entries
    still queued; so Size is the number pushed less the number popped. *)
Theorem run_conserves (ops : list op) :
  let rs := (run queue_init ops).1 in
  let q := (run queue_init ops).2 in
  Permutation (pushed_entries ops) (popped_entries rs ++ queue_ q)
  /\ Size q + length (popped_entries rs) = length (pushed_entries ops).
Proof.
  intros rs q.
  pose proof (run_conserves_from ops queue_init is_heap_nil) as H.
  simpl queue_ in H at 1. rewrite app_nil_r in H.
  split; [exact H|].
  apply Permutation_length in H. rewrite length_app in H.
  unfold Size. subst rs q. lia.
Qed.

(** *** Draining *)

Lemma pq_pop_length c :
  c <> [] -> is_heap c -> length c = S (length (pq_pop c)).
Proof.
  intros Hn Hh. destruct (pq_pop_spec c Hn Hh) as [_ Hp].
  apply Permutation_length in Hp. exact Hp.
Qed.

Lemma drain_from n : forall c s,
  length c = n -> is_heap c ->
  exists l,
    run (mkQueue c s) (repeat OpTryPop n) = (map Some l, mkQueue [] s)
    /\ Permutation l c
    /\ StronglySorted (fun a b => (earliest_fetch a <= earliest_fetch b)%Z) l.
Proof.
  induction n as [|n IH]; intros c s Hlen Hh.
  - destruct c; [|discriminate]. exists []. repeat split; constructor.
  - assert (Hn : c <> []) by (intros ->; discriminate).
    destruct (pq_pop_spec c Hn Hh) as [Hh' Hp].
    pose proof (pq_pop_length c Hn Hh) as Hl.
    destruct (IH (pq_pop c) s ltac:(lia) Hh') as (l & Hrun & Hpl & Hs).
    exists (pq_top c :: l).
    split; [|split].
    + cbn [repeat]. rewrite run_cons. cbn [step].
      assert (E : TryPop (mkQueue c s)
                  = (Some (pq_top c), mkQueue (pq_pop c) s)).
      { unfold TryPop. simpl. destruct c; [congruence|reflexivity]. }
      rewrite E. cbn [fst snd]. rewrite Hrun. reflexivity.
    + symmetry. etransitivity; [exact Hp|]. constructor. symmetry. exact Hpl.
    + constructor; [exact Hs|].
      apply List.Forall_forall. intros x Hx.
      apply (pq_top_minimal c x Hh).
      apply (Permutation_in x (Permutation_sym Hp)). right.
      apply (Permutation_in x Hpl). exact Hx.
Qed.

(** X15: popping until the queue is empty sorts: from any state a new
    queue can reach, Size successive TryPop calls all succeed, return the
    queued entries (each once) in non-decreasing order of earliest_fetch,
    and leave the queue empty. *)
Theorem drain_sorted (ops : list op) :
  let q := (run queue_init ops).2 in
  exists l,
    (run q (repeat OpTryPop (Size q))).1 = map Some l
    /\ Permutation l (queue_ q)
    /\ StronglySorted (fun a b => (earliest_fetch a <= earliest_fetch b)%Z) l
    /\ Empty (run q (repeat OpTryPop (Size q))).2 = true.
Proof.
  intros q.
  assert (Hh : is_heap (queue_ q)) by (apply run_heap, is_heap_nil).
  destruct (drain_from (Size q) (queue_ q) (shutdown_ q) eq_refl Hh)
    as (l & Hrun & Hp & Hs).
  assert (Hq : mkQueue (queue_ q) (shutdown_ q) = q) by (destruct q; reflexivity).
  rewrite Hq in Hrun. exists l. rewrite Hrun. auto.
Qed.

End UrlQueueMoreFacts.

(** ** The streaming crawl worker and its result queue *)

Module CrawlStreamMoreFacts.
Import Str Double Robots CrawlStream Samples.
Local Open Scope list_scope.

Section WithCollaborators.
Variable RetryConfig : Type.
Variable RetryConfig_init : RetryConfig.
Variable set_max_retries : Z -> RetryConfig -> RetryConfig.
Variable Fetch : string -> RetryConfig -> string -> HttpResponse.
Variable ExtractDomain ExtractPath : string -> string.
Variable ExtractJsonLdWithRust ExtractOpenGraphWithRust : string -> string.
Variable stod : string -> option double.

(** The robots check gives the decision of the domain's robots.txt, with
    the rules cached or fetched now, and keeps the cache sound. *)
Lemma check_robots_cached bind_data m u :
  cache_ok RetryConfig RetryConfig_init Fetch stod bind_data m ->
  (check_robots RetryConfig RetryConfig_init Fetch ExtractDomain ExtractPath
                stod bind_data m u).1
  = robots_allows RetryConfig RetryConfig_init Fetch ExtractDomain ExtractPath
                  stod bind_data u
  /\ cache_ok RetryConfig RetryConfig_init Fetch stod bind_data
       (check_robots RetryConfig RetryConfig_init Fetch ExtractDomain
                     ExtractPath stod bind_data m u).2.
Proof.
  intros Hm. unfold check_robots, robots_allows.
  destruct (respect_robots_txt bind_data); [|split; [reflexivity|exact Hm]].
  unfold GetOrCreate.
  destruct (m !! ExtractDomain u) as [s|] eqn:E.
  - rewrite (Hm _ _ E). cbn [robots_fetched rules fst snd]. split; [reflexivity|].
    intros d s' Hd. destruct (decide (d = ExtractDomain u)) as [->|Hne].
    + rewrite lookup_insert_eq in Hd. congruence.
    + rewrite lookup_insert_ne in Hd by congruence. exact (Hm _ _ Hd).
  - cbn [robots_fetched DomainState_init rules fst snd].
    split; [reflexivity|].
    intros d s' Hd. destruct (decide (d = ExtractDomain u)) as [->|Hne].
    + rewrite lookup_insert_eq in Hd. injection Hd as <-. reflexivity.
    + rewrite !lookup_insert_ne in Hd by congruence. exact (Hm _ _ Hd).
Qed.


(** The loop over the URLs: a row for each URL the robots decision
    allows, appended in order. *)
Lemma worker_loop bind_data us : forall st,
  cache_ok RetryConfig RetryConfig_init Fetch stod bind_data
           (domain_states st) ->
  results (fold_left
             (worker_iteration RetryConfig RetryConfig_init set_max_retries
                Fetch ExtractDomain ExtractPath ExtractJsonLdWithRust
                ExtractOpenGraphWithRust stod bind_data) us st)
  = results st
    ++ map (fetch_entry RetryConfig RetryConfig_init set_max_retries Fetch
              ExtractJsonLdWithRust ExtractOpenGraphWithRust bind_data)
           (List.filter
              (robots_allows RetryConfig RetryConfig_init Fetch ExtractDomain
                 ExtractPath stod bind_data) us).
Proof.
  induction us as [|u us IH]; intros st Hst.
  - simpl. rewrite app_nil_r. reflexivity.
  - cbn [fold_left List.filter].
    destruct (check_robots_cached bind_data (domain_states st) u Hst)
      as [Hd Hc].
    rewrite <- Hd. unfold worker_iteration at 2.
    destruct (check_robots _ _ _ _ _ _ bind_data (domain_states st) u)
      as [allow m]. cbn [fst snd] in *.
    destruct allow; cbn [negb].
    + rewrite IH by exact Hc. cbn [results map]. rewrite <- app_assoc.
      reflexivity.
    + rewrite IH by exact Hc. reflexivity.
Qed.

Lemma cache_ok_empty bind_data :
  cache_ok RetryConfig RetryConfig_init Fetch stod bind_data ∅.
Proof. intros d s H. rewrite lookup_empty in H. discriminate. Qed.

(** X19: the worker emits exactly one row for every URL that the robots
    decision allows, in the order of the input, and nothing else: the
    fetched row of each URL whose path the rules of its domain's
    robots.txt allow (every URL when [respect_robots_txt] is off). The
    rules a worker keeps per domain do not change the decision. [Fetch]
    is a function of its arguments here. *)
Theorem StreamCrawlWorker_rows (bind_data : CrawlStreamBindData) :
  results (StreamCrawlWorker RetryConfig RetryConfig_init set_max_retries
             Fetch ExtractDomain ExtractPath ExtractJsonLdWithRust
             ExtractOpenGraphWithRust stod bind_data)
  = map (fetch_entry RetryConfig RetryConfig_init set_max_retries Fetch
           ExtractJsonLdWithRust ExtractOpenGraphWithRust bind_data)
        (List.filter
           (robots_allows RetryConfig RetryConfig_init Fetch ExtractDomain
              ExtractPath stod bind_data) (urls bind_data)).
Proof.
  unfold StreamCrawlWorker.
  rewrite worker_loop by apply cache_ok_empty. reflexivity.
Qed.

Lemma filter_all {A : Type} (f : A -> bool) (l : list A) :
  (forall x, In x l -> f x = true) -> List.filter f l = l.
Proof.
  induction l as [|x l IH]; intros H; [reflexivity|].
  simpl. rewrite (H x) by (left; reflexivity).
  rewrite IH; [reflexivity|]. intros y Hy. apply H. right. exact Hy.
Qed.

(** X20: the robots check fails open: when the fetch of robots.txt
    fails for the domain of every URL, no URL is skipped, and the worker
    emits the fetched row of every URL, in order. *)
Theorem StreamCrawlWorker_robots_unreachable
  (bind_data : CrawlStreamBindData) :
  (forall u, In u (urls bind_data) ->
     success (Fetch ("https://" ++ ExtractDomain u ++ "/robots.txt")
                    RetryConfig_init (user_agent bind_data)) = false) ->
  results (StreamCrawlWorker RetryConfig RetryConfig_init set_max_retries
             Fetch ExtractDomain ExtractPath ExtractJsonLdWithRust
             ExtractOpenGraphWithRust stod bind_data)
  = map (fetch_entry RetryConfig RetryConfig_init set_max_retries Fetch
           ExtractJsonLdWithRust ExtractOpenGraphWithRust bind_data)
        (urls bind_data).
Proof.
  intros Hfail. unfold StreamCrawlWorker.
  rewrite worker_loop by apply cache_ok_empty. cbn [results app].
  rewrite filter_all; [reflexivity|].
  intros u Hu. unfold robots_allows, robots_rules.
  rewrite (Hfail u Hu). destruct (respect_robots_txt bind_data); reflexivity.
Qed.

End WithCollaborators.

Lemma StreamCrawlWorker_robots_unreachable_witness :
  results (StreamCrawlWorker unit tt (fun _ c => c) Fetch_down ExtractDomain_h
             ExtractPath_h (fun _ => "") (fun _ => "") Stod.stod
             (mkBind ["https://h/private/x"; "https://h/y"] "bot" true))
  = [mkRow "https://h/private/x" 0 "" "" "connection refused" 0 "" 0 "" "";
     mkRow "https://h/y" 0 "" "" "connection refused" 0 "" 0 "" ""].
Proof.
  apply (StreamCrawlWorker_robots_unreachable unit tt (fun _ c => c)
           Fetch_down ExtractDomain_h ExtractPath_h (fun _ => "")
           (fun _ => "") Stod.stod
           (mkBind ["https://h/private/x"; "https://h/y"] "bot" true)).
  intros u _. reflexivity.
Defined.

(** *** StreamResultQueue *)

Lemma popped_cons {A : Type} (r : option A) rs :
  popped (r :: rs) = popped [r] ++ popped rs.
Proof. destruct r; reflexivity. Qed.

Lemma rq_pushed_cons o ops :
  rq_pushed (o :: ops) = rq_pushed [o] ++ rq_pushed ops.
Proof. destruct o; reflexivity. Qed.

Lemma rq_run_fifo_from ops : forall q,
  popped (rq_run q ops).1 ++ rq_results (rq_run q ops).2
  = rq_results q ++ rq_pushed ops.
Proof.
  induction ops as [|o ops IH]; intros q.
  - simpl. rewrite app_nil_r. reflexivity.
  - cbn [rq_run].
    destruct (rq_step q o) as [r q1] eqn:Es.
    specialize (IH q1). destruct (rq_run q1 ops) as [rs q2].
    cbn [fst snd] in *.
    rewrite popped_cons, rq_pushed_cons, <- app_assoc, IH, !app_assoc.
    f_equal.
    destruct o as [e|]; simpl in Es.
    + injection Es as <- <-. reflexivity.
    + unfold rq_TryPop in Es. destruct (rq_results q) as [|f rest] eqn:Er.
      * injection Es as <- <-. rewrite Er. reflexivity.
      * injection Es as <- <-. simpl. rewrite app_nil_r. reflexivity.
Qed.

(** X21: the result queue is first in, first out and loses nothing:
    after every sequence of Push and TryPop calls on a new queue, the
    rows the pops returned, followed by the rows still queued, are the
    rows pushed, in the order they were pushed. *)
Theorem rq_run_fifo (ops : list rq_op) :
  popped (rq_run rq_init ops).1 ++ rq_results (rq_run rq_init ops).2
  = rq_pushed ops.
Proof. apply (rq_run_fifo_from ops rq_init). Qed.

End CrawlStreamMoreFacts.

(** ** ThreadSafeDomainMap *)

Module DomainMapFacts.
Import Double Robots DomainMap.

(** X22: GetOrCreate and TryGet agree: after GetOrCreate the map holds
    for the domain the state that was returned; a domain that had a state
    keeps it and the map is unchanged; a new domain gets the default
    state; no other domain is touched; and a second GetOrCreate returns
    the same state without changing the map. *)
Theorem GetOrCreate_TryGet (m : ThreadSafeDomainMap) (domain : string) :
  let m' := (GetOrCreate m domain).1 in
  let s := (GetOrCreate m domain).2 in
  TryGet m' domain = Some s
  /\ (forall s0, TryGet m domain = Some s0 -> m' = m /\ s = s0)
  /\ (TryGet m domain = None -> s = DomainState_init)
  /\ (forall other, other <> domain -> TryGet m' other = TryGet m other)
  /\ GetOrCreate m' domain = (m', s).
Proof.
  cbv zeta. unfold GetOrCreate, TryGet, ThreadSafeDomainMap in *.
  destruct (m !! domain) as [s0|] eqn:E; cbn [fst snd].
  - rewrite E. repeat split; try congruence.
  - rewrite lookup_insert_eq. repeat split; try congruence.
    intros other Hne. apply lookup_insert_ne. congruence.
Qed.

(** X23: InitializeFromDiscovery leaves for the domain a state with the
    six discovery fields of [src] (last crawl time, crawl delay, rules,
    robots_fetched, has_crawl_delay, minimum crawl delay) and with the
    counters, the 429 block and the response statistics the domain had
    before (the defaults for a new domain); no other domain is touched,
    and repeating the call changes nothing. *)
Theorem InitializeFromDiscovery_TryGet
  (m : ThreadSafeDomainMap) (domain : string) (src : DomainState) :
  let m' := InitializeFromDiscovery m domain src in
  let old := state_before m domain in
  TryGet m' domain
  = Some (mkDomainState
            (last_crawl_time src) (crawl_delay_seconds src) (rules src)
            (robots_fetched src)
            (urls_crawled old) (urls_failed old) (urls_skipped old)
            (blocked_until old) (consecutive_429s old)
            (has_crawl_delay src) (active_requests old)
            (average_response_ms old) (min_crawl_delay_seconds src)
            (response_count old))
  /\ (forall other, other <> domain -> TryGet m' other = TryGet m other)
  /\ InitializeFromDiscovery m' domain src = m'.
Proof.
  cbv zeta.
  unfold InitializeFromDiscovery, state_before, TryGet, ThreadSafeDomainMap
    in *.
  split; [|split].
  - rewrite lookup_insert_eq. destruct (m !! domain); reflexivity.
  - intros other Hne. apply lookup_insert_ne. congruence.
  - rewrite lookup_insert_eq. cbn. apply insert_insert_eq.
Qed.

End DomainMapFacts.

(** ** The attribute value of jq(html, selector, attr) *)

Module JqAttrFacts.
Import Str JqAttr.

Lemma unescape_json_escape s : unescape (json_escape s) = s.
Proof.
  induction s as [|c s IH]; [reflexivity|].
  cbn [json_escape].
  destruct (Ascii.eqb c quote) eqn:Eq.
  { cbn [orb unescape]. rewrite Eq. cbn. rewrite IH. reflexivity. }
  destruct (Ascii.eqb c backslash) eqn:Eb.
  { cbn [orb unescape]. rewrite Eq, Eb. cbn. rewrite IH. reflexivity. }
  cbn [orb].
  destruct (Ascii.eqb c (ascii_of_nat 10)) eqn:En.
  { apply Ascii.eqb_eq in En. subst c. cbn. rewrite IH. reflexivity. }
  destruct (Ascii.eqb c (ascii_of_nat 13)) eqn:Er.
  { apply Ascii.eqb_eq in Er. subst c. cbn. rewrite IH. reflexivity. }
  destruct (Ascii.eqb c (ascii_of_nat 9)) eqn:Et.
  { apply Ascii.eqb_eq in Et. subst c. cbn. rewrite IH. reflexivity. }
  cbn [unescape]. rewrite Eb, IH. reflexivity.
Qed.

Lemma back_snoc s c : back (s ++ String c EmptyString) = Some c.
Proof.
  induction s as [|a s IH]; [reflexivity|].
  change (back (String a (s ++ String c EmptyString)) = Some c).
  cbn [back]. rewrite IH.
  destruct (s ++ String c EmptyString)%string eqn:E; [|reflexivity].
  destruct s; discriminate.
Qed.

Lemma take_snoc s t : take (String.length s) (s ++ t) = s.
Proof.
  induction s as [|a s IH]; [destruct t; reflexivity|].
  change (take (S (String.length s)) (String a (s ++ t)) = String a s).
  cbn [take]. rewrite IH. reflexivity.
Qed.

Lemma length_snoc s c :
  String.length (s ++ String c EmptyString) = S (String.length s).
Proof.
  induction s as [|a s IH]; [reflexivity|].
  change (S (String.length (s ++ String c EmptyString))
          = S (S (String.length s))).
  rewrite IH. reflexivity.
Qed.

(** X24: the lambda decodes what a JSON writer encodes: for every string
    [s], from the JSON string literal of [s] (in quotes, with quote and
    backslash escaped by a backslash, newline, carriage return and tab
    written as \n, \r and \t, every other character as itself) it
    returns [s]. *)
Theorem decode_element_json_string (s : string) :
  decode_element
    (String quote (json_escape s ++ String quote EmptyString)) = s.
Proof.
  unfold decode_element.
  change (String.eqb (String quote (json_escape s ++ String quote EmptyString))
                     "null") with false.
  cbn [orb empty String.length].
  rewrite length_snoc. cbn [Nat.leb andb].
  rewrite Ascii.eqb_refl. cbn [andb].
  change (back (String quote (json_escape s ++ String quote EmptyString)))
    with (back (String quote EmptyString
                ++ (json_escape s ++ String quote EmptyString))).
  assert (Hb : back (String quote (json_escape s ++ String quote EmptyString))
               = Some quote).
  { cbn [back]. rewrite back_snoc.
    destruct (json_escape s ++ String quote EmptyString)%string eqn:E;
      [|reflexivity].
    destruct (json_escape s); discriminate. }
  change (back (String quote EmptyString
                ++ (json_escape s ++ String quote EmptyString)))
    with (back (String quote (json_escape s ++ String quote EmptyString))).
  rewrite Hb, Ascii.eqb_refl.
  unfold substr. cbn [substr_from].
  replace (S (S (String.length (json_escape s))) - 2)
    with (String.length (json_escape s)) by lia.
  rewrite take_snoc. apply unescape_json_escape.
Qed.

End JqAttrFacts.

(** ** The retry schedule *)

Module BackoffMoreFacts.
Import Backoff BackoffFacts.
Local Open Scope Z_scope.

(** X25: where no [int] overflows and the cap is at least the first
    delay (0 <= n <= m <= 2^31 - 2, 3 <= cap < 2^30), the delay is the
    element [n + 1] of the sequence 3, 3, 6, 9, 15, ... cut at the cap;
    it is at least 3, never above the cap, and does not decrease with
    the number of consecutive errors. *)
Theorem FibonacciBackoffSeconds_schedule (n m cap : Z) :
  0 <= n <= m -> m <= 2 ^ 31 - 2 -> 3 <= cap < 2 ^ 30 ->
  FibonacciBackoffSeconds n cap = Z.min (documented_seq (Z.to_nat n)) cap
  /\ 3 <= FibonacciBackoffSeconds n cap
  /\ FibonacciBackoffSeconds n cap <= FibonacciBackoffSeconds m cap <= cap.
Proof.
  intros Hn Hm Hcap.
  rewrite !FibonacciBackoffSeconds_value by lia.
  split; [reflexivity|].
  assert (documented_seq 0 <= documented_seq (Z.to_nat n))
    by (apply documented_seq_mono; lia).
  assert (documented_seq (Z.to_nat n) <= documented_seq (Z.to_nat m))
    by (apply documented_seq_mono; lia).
  change (documented_seq 0) with 3 in *. lia.
Qed.

Lemma FibonacciBackoffSeconds_schedule_witness :
  FibonacciBackoffSeconds 4 600 = Z.min (documented_seq (Z.to_nat 4)) 600
  /\ 3 <= FibonacciBackoffSeconds 4 600
  /\ FibonacciBackoffSeconds 4 600 <= FibonacciBackoffSeconds 12 600 <= 600.
Proof.
  apply (FibonacciBackoffSeconds_schedule 4 12 600); lia.
Defined.

End BackoffMoreFacts.

(** ** Reading back a sitemap that was written *)

Module SitemapRoundTrip.
Import Str Sitemap SitemapMoreFacts.

Lemma clash_app pat a r : clash pat a = true -> clash pat (a ++ r) = true.
Proof.
  revert a. induction pat as [|p pat IH]; intros a H; [discriminate|].
  destruct a as [|c a]; [discriminate|].
  rewrite append_cons. cbn [clash] in *.
  destruct (Ascii.eqb p c); cbn [negb orb] in *; [|reflexivity].
  apply IH. exact H.
Qed.

Lemma clash_starts_with pat s : clash pat s = true -> starts_with pat s = false.
Proof.
  revert s. induction pat as [|p pat IH]; intros s H; [discriminate|].
  destruct s as [|c s]; [discriminate|].
  cbn [clash starts_with] in *.
  destruct (Ascii.eqb p c); cbn [negb orb andb] in *; [|reflexivity].
  apply IH. exact H.
Qed.

Lemma misses_app pat a b :
  misses pat a = true -> misses pat b = true -> misses pat (a ++ b) = true.
Proof.
  intros Ha Hb. induction a as [|c a IH]; [exact Hb|].
  cbn [misses] in Ha. apply andb_true_iff in Ha. destruct Ha as [Hc Ha].
  rewrite append_cons. cbn [misses]. apply andb_true_iff. split.
  - rewrite <- append_cons. apply clash_app. exact Hc.
  - apply IH. exact Ha.
Qed.

Lemma find_scan_misses pat a r i :
  misses pat a = true ->
  find_scan pat (a ++ r) i = find_scan pat r (i + String.length a).
Proof.
  revert i. induction a as [|c a IH]; intros i Ha.
  - simpl. rewrite Nat.add_0_r. reflexivity.
  - cbn [misses] in Ha. apply andb_true_iff in Ha. destruct Ha as [Hc Ha].
    pose proof (clash_starts_with pat _ (clash_app pat _ r Hc)) as Hs.
    rewrite append_cons in *. cbn [find_scan]. rewrite Hs.
    rewrite IH by exact Ha. simpl. f_equal. lia.
Qed.

Lemma no_lt_misses p v : no_lt v = true -> misses (String "<" p) v = true.
Proof.
  induction v as [|c v IH]; intros H; [reflexivity|].
  cbn [no_lt] in H. apply andb_true_iff in H. destruct H as [Hc Hv].
  cbn [misses clash]. rewrite Ascii.eqb_sym, Hc. cbn [orb andb].
  apply IH. exact Hv.
Qed.

Lemma find_scan_end pat i :
  pat <> EmptyString -> find_scan pat EmptyString i = None.
Proof. destruct pat; [congruence|reflexivity]. Qed.

(** The content of a tag that is written once behind text that does
    not open it. *)
Lemma ExtractTagContent_found xml pre tag v rest :
  xml = (pre ++ ("<" ++ tag ++ ">") ++ v ++ ("</" ++ tag ++ ">") ++ rest)%string ->
  misses ("<" ++ tag ++ ">") pre = true ->
  misses ("</" ++ tag ++ ">") v = true ->
  fst (ExtractTagContent xml tag 0) = v.
Proof.
  intros -> Hpre Hv. unfold ExtractTagContent.
  set (open_tag := ("<" ++ tag ++ ">")%string) in *.
  set (close_tag := ("</" ++ tag ++ ">")%string) in *.
  set (after := (v ++ close_tag ++ rest)%string).
  assert (E1 : find (pre ++ open_tag ++ after) open_tag 0
               = Some (String.length pre)).
  { unfold find. simpl Nat.leb. cbv iota. rewrite substr_from_0.
    rewrite find_scan_misses by exact Hpre. rewrite Nat.add_0_l.
    apply find_scan_hit, starts_with_app. }
  rewrite E1.
  assert (E2 : find (pre ++ open_tag ++ after) close_tag
                    (String.length pre + String.length open_tag)
               = Some (String.length pre + String.length open_tag
                       + String.length v)).
  { unfold find.
    assert (Hle : (String.length pre + String.length open_tag
                   <=? String.length (pre ++ open_tag ++ after)) = true)
      by (apply Nat.leb_le; rewrite !length_append; lia).
    rewrite Hle, <- substr_from_add, substr_from_app, substr_from_app.
    subst after. rewrite find_scan_misses by exact Hv.
    apply find_scan_hit, starts_with_app. }
  rewrite E2. cbn [fst]. unfold substr.
  rewrite <- substr_from_add, substr_from_app, substr_from_app.
  replace (String.length pre + String.length open_tag + String.length v
           - (String.length pre + String.length open_tag))
    with (String.length v) by lia.
  subst after. apply take_app.
Qed.

Lemma take_all s : take (String.length s) s = s.
Proof. induction s as [|c s IH]; simpl; [reflexivity|]. rewrite IH. reflexivity. Qed.

Lemma find_last_not_of_scan_back set s b : forall i,
  back s = Some b -> set b = false ->
  find_last_not_of_scan set s i = Some (i + String.length s - 1).
Proof.
  induction s as [|c s IH]; intros i Hb Hs; [discriminate|].
  cbn [find_last_not_of_scan]. destruct s as [|c' s'].
  - injection Hb as ->. cbn [find_last_not_of_scan]. rewrite Hs.
    simpl. f_equal. lia.
  - rewrite (IH (S i)) by assumption. f_equal. simpl. lia.
Qed.

Lemma trim_loc_fixed s : trimmed_by ws ws s -> trim_loc s = Some s.
Proof.
  intros (a & b & Ha & Hb & Hsa & Hsb). unfold trim_loc.
  rewrite (find_last_not_of_scan_back ws s b 0 Hb Hsb
           : find_last_not_of ws s = _).
  destruct s as [|c s]; [discriminate|]. injection Ha as ->.
  unfold find_first_not_of. cbn [find_first_not_of_scan]. rewrite Hsa.
  unfold substr. rewrite substr_from_0.
  replace (0 + String.length (String a s) - 1 - 0 + 1)
    with (String.length (String a s)) by (simpl; lia).
  rewrite take_all. reflexivity.
Qed.

Lemma render_field_parts tag v :
  render_field tag v
  = (("<" ++ tag ++ ">") ++ v ++ ("</" ++ tag ++ ">"))%string.
Proof. unfold render_field. rewrite !append_assoc. reflexivity. Qed.

Lemma misses_render_field pat tag v :
  misses pat ("<" ++ tag ++ ">") = true -> misses pat v = true ->
  misses pat ("</" ++ tag ++ ">") = true ->
  misses pat (render_field tag v) = true.
Proof.
  intros H1 H2 H3. rewrite render_field_parts.
  apply misses_app; [exact H1|]. apply misses_app; assumption.
Qed.

Ltac misses_parts :=
  repeat first
    [ reflexivity
    | assumption
    | apply no_lt_misses; assumption
    | apply misses_render_field
    | apply misses_app ].

(** A [<url>] block that was written is read back as its entry, also
    behind text [j] that opens none of the four fields. *)
Lemma parse_url_block_render j e :
  entry_ok e ->
  misses "<loc>" j = true -> misses "<lastmod>" j = true ->
  misses "<changefreq>" j = true -> misses "<priority>" j = true ->
  parse_url_block (j ++ render_url e) = Some e.
Proof.
  intros (Ht & Hl & Hm & Hc & Hp) J1 J2 J3 J4.
  unfold parse_url_block.
  rewrite (ExtractTagContent_found (j ++ render_url e)
             (j ++ "<url>") "loc" (loc e)
             (render_field "lastmod" (lastmod e)
              ++ render_field "changefreq" (changefreq e)
              ++ render_field "priority" (priority e) ++ "</url>"));
    [ | unfold render_url, render_field; rewrite !append_assoc; reflexivity
      | misses_parts | misses_parts ].
  rewrite (ExtractTagContent_found (j ++ render_url e)
             (j ++ "<url>" ++ render_field "loc" (loc e))
             "lastmod" (lastmod e)
             (render_field "changefreq" (changefreq e)
              ++ render_field "priority" (priority e) ++ "</url>"));
    [ | unfold render_url, render_field; rewrite !append_assoc; reflexivity
      | misses_parts | misses_parts ].
  rewrite (ExtractTagContent_found (j ++ render_url e)
             (j ++ "<url>" ++ render_field "loc" (loc e)
              ++ render_field "lastmod" (lastmod e))
             "changefreq" (changefreq e)
             (render_field "priority" (priority e) ++ "</url>"));
    [ | unfold render_url, render_field; rewrite !append_assoc; reflexivity
      | misses_parts | misses_parts ].
  rewrite (ExtractTagContent_found (j ++ render_url e)
             (j ++ "<url>" ++ render_field "loc" (loc e)
              ++ render_field "lastmod" (lastmod e)
              ++ render_field "changefreq" (changefreq e))
             "priority" (priority e) "</url>");
    [ | unfold render_url, render_field; rewrite !append_assoc; reflexivity
      | misses_parts | misses_parts ].
  rewrite (trim_loc_fixed _ Ht).
  destruct Ht as (a & _ & Ha & _).
  destruct (loc e) as [|c l] eqn:El; [discriminate|].
  cbn [empty]. rewrite <- El. destruct e; reflexivity.
Qed.

Lemma starts_with_prefix pat a b :
  starts_with pat a = true -> starts_with pat (a ++ b) = true.
Proof.
  revert a. induction pat as [|p pat IH]; intros a H; [reflexivity|].
  destruct a as [|c a]; [discriminate|].
  rewrite append_cons. cbn [starts_with] in *.
  apply andb_true_iff in H. destruct H as [-> H]. apply IH. exact H.
Qed.

Lemma append_nil_r s : (s ++ EmptyString)%string = s.
Proof.
  induction s as [|c s IH]; [reflexivity|].
  rewrite append_cons, IH. reflexivity.
Qed.

Lemma find_scan_none pat s i :
  pat <> EmptyString -> misses pat s = true -> find_scan pat s i = None.
Proof.
  intros Hp Hs. rewrite <- (append_nil_r s), find_scan_misses by exact Hs.
  apply find_scan_end. exact Hp.
Qed.

(** One iteration of the loop of FindAllBlocks at the start of a block. *)
Lemma loop_step fuel xml op cl pre inner rest blocks :
  cl <> EmptyString ->
  xml = (pre ++ (inner ++ cl) ++ rest)%string ->
  starts_with op inner = true ->
  misses cl inner = true ->
  FindAllBlocks_loop (S fuel) xml op cl (String.length pre) blocks
  = FindAllBlocks_loop fuel xml op cl
      (String.length (pre ++ inner ++ cl))
      (blocks ++ [(inner ++ cl)%string])%list.
Proof.
  intros Hcl -> Hs Hm. cbn [FindAllBlocks_loop].
  assert (0 < String.length cl) by (destruct cl; [congruence|simpl; lia]).
  assert (Hlt : (String.length pre
                 <? String.length (pre ++ (inner ++ cl) ++ rest)) = true).
  { apply Nat.ltb_lt. rewrite !length_append. lia. }
  rewrite Hlt.
  assert (Hle : (String.length pre
                 <=? String.length (pre ++ (inner ++ cl) ++ rest)) = true).
  { apply Nat.leb_le. apply Nat.ltb_lt in Hlt. lia. }
  unfold find. rewrite Hle, substr_from_app.
  rewrite (find_scan_hit op)
    by (rewrite !append_assoc; apply starts_with_prefix; exact Hs).
  rewrite Hle, substr_from_app.
  rewrite append_assoc, find_scan_misses by exact Hm.
  rewrite (find_scan_hit cl) by apply starts_with_app.
  unfold substr.
  rewrite <- (append_assoc inner), substr_from_app.
  replace (String.length pre + String.length inner + String.length cl
           - String.length pre)
    with (String.length (inner ++ cl))
    by (rewrite length_append; lia).
  rewrite take_app. f_equal.
  rewrite !length_append. lia.
Qed.

(** The loop stops where no block opens any more. *)
Lemma loop_end fuel xml op cl pre rest blocks :
  op <> EmptyString ->
  xml = (pre ++ rest)%string -> misses op rest = true ->
  FindAllBlocks_loop fuel xml op cl (String.length pre) blocks = blocks.
Proof.
  intros Hop -> Hm. destruct fuel as [|fuel]; [reflexivity|].
  cbn [FindAllBlocks_loop].
  destruct (String.length pre <? String.length (pre ++ rest)) eqn:Hlt;
    [|reflexivity].
  unfold find.
  assert (Hle : (String.length pre <=? String.length (pre ++ rest)) = true)
    by (apply Nat.leb_le; apply Nat.ltb_lt in Hlt; lia).
  rewrite Hle, substr_from_app.
  rewrite find_scan_none by assumption. reflexivity.
Qed.

(** The loop over blocks written one after the other: each is found. *)
Lemma loop_blocks {A : Type} (r : A -> string) (P : A -> Prop)
  xml op cl tail :
  op <> EmptyString -> cl <> EmptyString -> misses op tail = true ->
  (forall a, P a ->
     exists inner, r a = (inner ++ cl)%string
                   /\ starts_with op inner = true
                   /\ misses cl inner = true) ->
  forall es fuel pre blocks,
    length es <= fuel -> Forall P es ->
    xml = (pre ++ concat_str (map r es) ++ tail)%string ->
    FindAllBlocks_loop fuel xml op cl (String.length pre) blocks
    = (blocks ++ map r es)%list.
Proof.
  intros Hop Hcl Htail Hr.
  induction es as [|e es IH]; intros fuel pre blocks Hf Hok Hx.
  - rewrite (loop_end fuel xml op cl pre tail blocks Hop Hx Htail).
    rewrite app_nil_r. reflexivity.
  - destruct fuel as [|fuel]; [simpl in Hf; lia|].
    apply Forall_cons in Hok. destruct Hok as [He Hes].
    destruct (Hr e He) as (inner & Ei & Hs & Hm).
    cbn [map concat_str] in Hx. rewrite Ei in Hx.
    rewrite (loop_step fuel xml op cl pre inner
               (concat_str (map r es) ++ tail) blocks)
      by (try assumption; rewrite Hx, !append_assoc; reflexivity).
    rewrite (IH fuel (pre ++ inner ++ cl)%string)
      by (try assumption; try (simpl in Hf; lia);
          rewrite Hx, !append_assoc; reflexivity).
    cbn [map]. rewrite Ei, <- app_assoc. reflexivity.
Qed.

Lemma concat_length {A : Type} (r : A -> string) es :
  (forall a, 0 < String.length (r a)) ->
  length es <= String.length (concat_str (map r es)).
Proof.
  intros Hr. induction es as [|e es IH]; [simpl; lia|].
  cbn [map concat_str length]. rewrite length_append.
  specialize (Hr e). lia.
Qed.

(** The text of a [<url>] block up to its closing tag. *)
Lemma render_url_inner e :
  entry_ok e ->
  exists inner, render_url e = (inner ++ "</url>")%string
                /\ starts_with "<url" inner = true
                /\ misses "</url>" inner = true.
Proof.
  intros (Ht & Hl & Hm & Hc & Hp).
  exists ("<url>" ++ render_field "loc" (loc e)
          ++ render_field "lastmod" (lastmod e)
          ++ render_field "changefreq" (changefreq e)
          ++ render_field "priority" (priority e))%string.
  split; [|split].
  - unfold render_url. rewrite !append_assoc. reflexivity.
  - reflexivity.
  - misses_parts.
Qed.

Lemma misses_concat pat l :
  Forall (fun x => misses pat x = true) l -> misses pat (concat_str l) = true.
Proof.
  induction 1 as [|x l Hx _ IH]; [reflexivity|].
  cbn [concat_str]. apply misses_app; assumption.
Qed.

Lemma misses_blocks p es :
  Forall entry_ok es ->
  misses (String "<" p) "<url>" = true ->
  misses (String "<" p) "</url>" = true ->
  (forall tag, In tag ["loc"; "lastmod"; "changefreq"; "priority"] ->
     misses (String "<" p) ("<" ++ tag ++ ">") = true
     /\ misses (String "<" p) ("</" ++ tag ++ ">") = true) ->
  misses (String "<" p) (concat_str (map render_url es)) = true.
Proof.
  intros Hok H1 H2 Ht. apply misses_concat, List.Forall_map.
  eapply List.Forall_impl; [|exact Hok].
  intros e (_ & Hl & Hm & Hc & Hp). unfold render_url.
  destruct (Ht "loc") as [? ?]; [simpl; tauto|].
  destruct (Ht "lastmod") as [? ?]; [simpl; tauto|].
  destruct (Ht "changefreq") as [? ?]; [simpl; tauto|].
  destruct (Ht "priority") as [? ?]; [simpl; tauto|].
  repeat first
    [ assumption
    | apply no_lt_misses; assumption
    | apply misses_render_field
    | apply misses_app ].
Qed.

Ltac tags_missed :=
  let tag := fresh "tag" in
  let H := fresh "H" in
  intros tag H; simpl in H;
  repeat (destruct H as [<-|H]; [split; reflexivity|]);
  destruct H.

Lemma collect_render es :
  Forall entry_ok es -> collect parse_url_block (map render_url es) = es.
Proof.
  induction 1 as [|e es He _ IH]; [reflexivity|].
  cbn [map collect].
  rewrite (parse_url_block_render EmptyString e He eq_refl eq_refl eq_refl
             eq_refl : parse_url_block (render_url e) = Some e).
  rewrite IH. reflexivity.
Qed.

(** X16: a sitemap that was written is read back: for every list of
    entries whose fields hold no [<] and whose locations are not empty
    and have no whitespace around them, SitemapParser::Parse of the
    [<urlset>] document with one [<url>] block per entry (fields [loc],
    [lastmod], [changefreq], [priority]) returns these entries, in order,
    no nested sitemap, and [is_index = false]. That FindAllBlocks also
    takes [<urlset] for the opening of a [<url>] block does no harm. *)
Theorem Parse_render_urlset (attrs : string) (es : list SitemapEntry) :
  no_lt attrs = true -> Forall entry_ok es ->
  Parse (render_urlset attrs es) = mkSitemap es [] false.
Proof.
  intros Ha Hok. unfold Parse.
  assert (Hidx : find (render_urlset attrs es) "<sitemapindex" 0 = None).
  { unfold find. simpl Nat.leb. cbv iota. rewrite substr_from_0.
    apply find_scan_none; [discriminate|]. unfold render_urlset.
    apply misses_app; [reflexivity|].
    apply misses_app; [apply no_lt_misses; exact Ha|].
    apply misses_app; [reflexivity|].
    apply misses_app; [|reflexivity].
    apply misses_blocks; [exact Hok|reflexivity|reflexivity|tags_missed]. }
  rewrite Hidx. f_equal.
  unfold FindAllBlocks.
  change ("<" ++ "url")%string with "<url".
  change ("</" ++ "url" ++ ">")%string with "</url>".
  destruct es as [|e es].
  - (* no block: the closing tag of a block is never found *)
    unfold render_urlset. cbn [map concat_str].
    destruct (String.length _) as [|fuel] eqn:El; [reflexivity|].
    cbn [FindAllBlocks_loop]. rewrite El.
    unfold find at 1. rewrite El. cbn [Nat.ltb Nat.leb substr_from].
    rewrite (find_scan_hit "<url") by reflexivity.
    unfold find. rewrite El. cbn [Nat.leb substr_from].
    rewrite find_scan_none; [reflexivity|discriminate|].
    apply misses_app; [reflexivity|].
    apply misses_app; [apply no_lt_misses; exact Ha|reflexivity].
  - apply Forall_cons in Hok. destruct Hok as [He Hes].
    destruct (render_url_inner e He) as (inner & Ei & Hs & Hm).
    set (j := ("<urlset" ++ attrs ++ ">")%string).
    assert (Ex : render_urlset attrs (e :: es)
                 = (EmptyString ++ ((j ++ inner) ++ "</url>")
                    ++ concat_str (map render_url es) ++ "</urlset>")%string).
    { unfold render_urlset. cbn [map concat_str]. rewrite Ei. subst j.
      rewrite !append_assoc. reflexivity. }
    destruct (String.length (render_urlset attrs (e :: es))) as [|fuel] eqn:El.
    { rewrite Ex, !length_append in El. simpl in El. lia. }
    assert (Hj : misses "</url>" (j ++ inner) = true).
    { apply misses_app; [|exact Hm].
      subst j. apply misses_app; [reflexivity|].
      apply misses_app; [apply no_lt_misses; exact Ha|reflexivity]. }
    pose proof (loop_step fuel _ "<url" "</url>" EmptyString (j ++ inner)
                  (concat_str (map render_url es) ++ "</urlset>") []
                  ltac:(discriminate) Ex eq_refl Hj) as Hstep.
    change (String.length EmptyString) with 0 in Hstep. rewrite Hstep.
    rewrite (loop_blocks render_url entry_ok _ "<url" "</url>" "</urlset>"
               ltac:(discriminate) ltac:(discriminate) eq_refl
               render_url_inner es fuel);
      [ | pose proof (concat_length render_url es) as Hc;
          rewrite Ex, !length_append in El; simpl in El;
          assert (length es <= String.length (concat_str (map render_url es)))
            by (apply Hc; intros a; unfold render_url;
                rewrite length_append; simpl; lia);
          lia
        | exact Hes
        | rewrite Ex, !append_assoc; reflexivity ].
    cbn [app collect].
    rewrite append_assoc, <- Ei.
    rewrite (parse_url_block_render j e He); subst j;
      [ | apply misses_app; [reflexivity|];
          apply misses_app; [apply no_lt_misses; exact Ha|reflexivity] .. ].
    rewrite collect_render by exact Hes. reflexivity.
Qed.

Lemma Parse_render_urlset_witness :
  Parse (render_urlset " xmlns=x"
           [mkEntry "http://a/1" "2024-01-01" "daily" "0.5";
            mkEntry "http://a/2" "" "" ""])
  = mkSitemap [mkEntry "http://a/1" "2024-01-01" "daily" "0.5";
               mkEntry "http://a/2" "" "" ""] [] false.
Proof.
  apply (Parse_render_urlset " xmlns=x"
           [mkEntry "http://a/1" "2024-01-01" "daily" "0.5";
            mkEntry "http://a/2" "" "" ""]); [reflexivity|].
  constructor; [|constructor; [|constructor]];
    (split; [eexists _, _; repeat split | repeat split]).
Defined.

(** *** The sitemap index *)

Lemma render_sitemap_inner u :
  loc_ok u ->
  exists inner, render_sitemap u = (inner ++ "</sitemap>")%string
                /\ starts_with "<sitemap" inner = true
                /\ misses "</sitemap>" inner = true.
Proof.
  intros (Ht & Hl).
  exists ("<sitemap>" ++ render_field "loc" u)%string.
  split; [|split].
  - unfold render_sitemap. rewrite !append_assoc. reflexivity.
  - reflexivity.
  - misses_parts.
Qed.

Lemma parse_sitemap_block_render j u :
  loc_ok u -> misses "<loc>" j = true ->
  parse_sitemap_block (j ++ render_sitemap u) = Some u.
Proof.
  intros (Ht & Hl) J. unfold parse_sitemap_block.
  rewrite (ExtractTagContent_found (j ++ render_sitemap u)
             (j ++ "<sitemap>") "loc" u "</sitemap>");
    [ | unfold render_sitemap, render_field; rewrite !append_assoc;
        reflexivity
      | misses_parts | misses_parts ].
  rewrite (trim_loc_fixed _ Ht).
  destruct Ht as (a & _ & Ha & _).
  destruct u; [discriminate|reflexivity].
Qed.

Lemma collect_render_sitemap us :
  Forall loc_ok us -> collect parse_sitemap_block (map render_sitemap us) = us.
Proof.
  induction 1 as [|u us Hu _ IH]; [reflexivity|].
  cbn [map collect].
  rewrite (parse_sitemap_block_render EmptyString u Hu eq_refl
           : parse_sitemap_block (render_sitemap u) = Some u).
  rewrite IH. reflexivity.
Qed.

(** X17: a sitemap index that was written is read back: for every list
    of locations without [<], not empty and without whitespace around
    them, SitemapParser::Parse of the [<sitemapindex>] document with one
    [<sitemap><loc>] block per location returns these locations as
    nested sitemaps, in order, no URL entry, and [is_index = true]. *)
Theorem Parse_render_sitemapindex (attrs : string) (us : list string) :
  no_lt attrs = true -> Forall loc_ok us ->
  Parse (render_sitemapindex attrs us) = mkSitemap [] us true.
Proof.
  intros Ha Hok. unfold Parse.
  assert (Hidx : find (render_sitemapindex attrs us) "<sitemapindex" 0
                 = Some 0).
  { unfold find. simpl Nat.leb. cbv iota. rewrite substr_from_0.
    apply find_scan_hit. reflexivity. }
  rewrite Hidx. f_equal.
  unfold FindAllBlocks.
  change ("<" ++ "sitemap")%string with "<sitemap".
  change ("</" ++ "sitemap" ++ ">")%string with "</sitemap>".
  set (j := ("<sitemapindex" ++ attrs ++ ">")%string).
  assert (Hjc : misses "</sitemap>" j = true).
  { subst j. apply misses_app; [reflexivity|].
    apply misses_app; [apply no_lt_misses; exact Ha|reflexivity]. }
  assert (Hjl : misses "<loc>" j = true).
  { subst j. apply misses_app; [reflexivity|].
    apply misses_app; [apply no_lt_misses; exact Ha|reflexivity]. }
  destruct us as [|u us].
  - unfold render_sitemapindex. cbn [map concat_str].
    destruct (String.length _) as [|fuel] eqn:El; [reflexivity|].
    cbn [FindAllBlocks_loop]. rewrite El.
    unfold find at 1. rewrite El. cbn [Nat.ltb Nat.leb substr_from].
    rewrite (find_scan_hit "<sitemap") by reflexivity.
    unfold find. rewrite El. cbn [Nat.leb substr_from].
    rewrite find_scan_none; [reflexivity|discriminate|].
    apply misses_app; [reflexivity|].
    apply misses_app; [apply no_lt_misses; exact Ha|reflexivity].
  - apply Forall_cons in Hok. destruct Hok as [Hu Hus].
    destruct (render_sitemap_inner u Hu) as (inner & Ei & Hs & Hm).
    assert (Ex : render_sitemapindex attrs (u :: us)
                 = (EmptyString ++ ((j ++ inner) ++ "</sitemap>")
                    ++ concat_str (map render_sitemap us)
                    ++ "</sitemapindex>")%string).
    { unfold render_sitemapindex. cbn [map concat_str]. rewrite Ei. subst j.
      rewrite !append_assoc. reflexivity. }
    destruct (String.length (render_sitemapindex attrs (u :: us)))
      as [|fuel] eqn:El.
    { rewrite Ex, !length_append in El. simpl in El. lia. }
    pose proof (loop_step fuel _ "<sitemap" "</sitemap>" EmptyString
                  (j ++ inner)
                  (concat_str (map render_sitemap us) ++ "</sitemapindex>")
                  [] ltac:(discriminate) Ex eq_refl
                  (misses_app _ _ _ Hjc Hm)) as Hstep.
    change (String.length EmptyString) with 0 in Hstep. rewrite Hstep.
    rewrite (loop_blocks render_sitemap loc_ok _ "<sitemap" "</sitemap>"
               "</sitemapindex>"
               ltac:(discriminate) ltac:(discriminate) eq_refl
               render_sitemap_inner us fuel);
      [ | pose proof (concat_length render_sitemap us) as Hc;
          rewrite Ex, !length_append in El; simpl in El;
          assert (length us
                  <= String.length (concat_str (map render_sitemap us)))
            by (apply Hc; intros a; unfold render_sitemap;
                rewrite length_append; simpl; lia);
          lia
        | exact Hus
        | rewrite Ex, !append_assoc; reflexivity ].
    cbn [app collect].
    rewrite append_assoc, <- Ei.
    rewrite (parse_sitemap_block_render j u Hu Hjl).
    rewrite collect_render_sitemap by exact Hus. reflexivity.
Qed.

Lemma Parse_render_sitemapindex_witness :
  Parse (render_sitemapindex " xmlns=x" ["http://a/s1.xml"; "http://a/s2.xml"])
  = mkSitemap [] ["http://a/s1.xml"; "http://a/s2.xml"] true.
Proof.
  apply (Parse_render_sitemapindex " xmlns=x"
           ["http://a/s1.xml"; "http://a/s2.xml"]); [reflexivity|].
  constructor; [|constructor; [|constructor]];
    (split; [eexists _, _; repeat split | reflexivity]).
Defined.

End SitemapRoundTrip.

(** ** Reading back a robots.txt that was written *)

Module RobotsRoundTrip.
Import Str Double Robots RobotsSpec.













Section WithStod.
Variable stod : string -> option double.










End WithStod.


End RobotsRoundTrip.
